(** * Crossword generation as a CSP (generate.py)

    A shallow embedding of [CrosswordCreator]: node consistency, arc
    revision, AC-3, the MRV/degree and LCV heuristics and the backtracking
    search, followed by the properties of the specification.

    Conventions of the embedding.
    - A Python [dict] is a [gmap]; a missing key raises [KeyError].
    - A Python [set] is the list of its members in iteration order.  The
      order of a set is not fixed by the language, so every statement below
      is made for an arbitrary order.  Removing a member keeps the order of
      the others.
    - A Python [str] is a [string]; [s[k]] for [k] past the end raises
      [IndexError].
    - Code that can raise returns a [result]. *)

From stdpp Require Import gmap strings list sorting.

(** ** Outcomes *)

Inductive exn := KeyError | IndexError | TypeError.

(** [Diverge] is the outcome of a loop or recursion whose fuel is spent.  It
    is shown below that the fuel handed out by [ac3] and [solve] is never
    spent. *)
Inductive result (A : Type) : Type :=
  | Ok (a : A)
  | Raise (e : exn)
  | Diverge.
Arguments Ok {A} a.
Arguments Raise {A} e.
Arguments Diverge {A}.

#[global] Instance result_ret : MRet result := @Ok.
#[global] Instance result_bind : MBind result := λ A B f m,
  match m with
  | Ok a => f a
  | Raise e => Raise e
  | Diverge => Diverge
  end.

(** A [for] loop whose body may raise, threading the loop state. *)
Fixpoint foldlM {A B : Type} (f : B → A → result B) (b : B) (l : list A) : result B :=
  match l with
  | [] => Ok b
  | x :: l => b' ← f b x; foldlM f b' l
  end.

(** [d[k]] on a dict. *)
Definition lookup_key {K V : Type} `{Countable K} (m : gmap K V) (k : K) : result V :=
  match m !! k with
  | Some v => Ok v
  | None => Raise KeyError
  end.

(** [s[k]] on a string, for a non-negative [k]. *)
Definition index (s : string) (k : nat) : result Ascii.ascii :=
  match String.get k s with
  | Some c => Ok c
  | None => Raise IndexError
  end.

(** ** [list.sort(key=...)]

    Python's sort is stable and compares keys only.  The keys are computed
    first, one call per element in list order; a key that raises aborts the
    sort.  The stable arrangement is unique, and is built here by insertion
    from the right. *)
Section sorting.
Context {K A : Type} (le : K → K → bool).

Fixpoint insert_by_key (x : K * A) (l : list (K * A)) : list (K * A) :=
  match l with
  | [] => [x]
  | y :: l' => if le x.1 y.1 then x :: l else y :: insert_by_key x l'
  end.

Definition sort_by_key (l : list (K * A)) : list (K * A) :=
  foldr insert_by_key [] l.

Definition list_sort (key : A → result K) (l : list A) : result (list A) :=
  keys ← mapM key l;
  Ok (sort_by_key (zip keys l)).*2.
End sorting.

(** Order on the keys [(n, d)] of [select_unassigned_variable]: Python
    compares tuples lexicographically. *)
Definition tuple_le (a b : nat * Z) : bool :=
  (a.1 <? b.1) || ((a.1 =? b.1) && (a.2 <=? b.2)%Z).

(** ** The puzzle model *)

Inductive Direction := ACROSS | DOWN.

(** The class [Variable] of the puzzle model ([Variable] is reserved in
    Rocq, hence the module name).  The fields are the attributes generate.py
    reads: [variable.i], [variable.j], [variable.direction], [var.length]. *)
Module Var.
Record t := mk { i : nat; j : nat; direction : Direction; length : nat }.
End Var.

#[global] Instance Direction_eq_dec : EqDecision Direction.
Proof. solve_decision. Defined.

#[global] Instance Var_eq_dec : EqDecision Var.t.
Proof. solve_decision. Defined.

#[global] Instance Direction_countable : Countable Direction.
Proof.
  refine (inj_countable' (λ d, match d with ACROSS => true | DOWN => false end)
                         (λ b : bool, if b then ACROSS else DOWN) _).
  by intros [].
Defined.

#[global] Instance Var_countable : Countable Var.t.
Proof.
  refine (inj_countable'
            (λ v, (Var.i v, Var.j v, Var.direction v, Var.length v))
            (λ '(a, b, c, d), Var.mk a b c d) _).
  by intros [].
Defined.

(** What generate.py reads of a [Crossword]: the set of variables, the set
    of words, and the table of overlaps.  The class itself lives in
    crossword.py, which is not part of the sources, so the table is an input
    of the model: [overlaps x y] is what [self.crossword.overlaps.get((x, y))]
    gives, a pair of offsets, or [None] when the table holds [None] for the
    key or has no such key. *)
Record Crossword := {
  variables : list Var.t;
  words : list string;
  overlaps : Var.t → Var.t → option (nat * nat)
}.

(** The cells a variable covers, as [letter_grid] walks them. *)
Definition cells (v : Var.t) : list (nat * nat) :=
  (λ k, (Var.i v + (if decide (Var.direction v = DOWN) then k else 0),
         Var.j v + (if decide (Var.direction v = ACROSS) then k else 0)))
    <$> seq 0 (Var.length v).

(** Modelled from the spec: the overlap table of crossword.py, which is not
    among the sources.  For two distinct variables whose cells intersect it
    gives the offsets of the shared cell in each; otherwise there is no
    entry. *)
Definition cell_overlaps (x y : Var.t) : option (nat * nat) :=
  if decide (x = y) then None
  else head (filter (λ p : nat * nat, cells x !! p.1 = cells y !! p.2)
               (list_prod (seq 0 (Var.length x)) (seq 0 (Var.length y)))).

(** ** The solver *)

Abbreviation Domains := (gmap Var.t (list string)).
Abbreviation Assignment := (gmap Var.t string).
Abbreviation Arc := (Var.t * Var.t)%type.

(** [set.remove(word)].  Every call site removes a word it has just read
    from that very set, so the [KeyError] of an absent member cannot occur. *)
Definition remove_word (word : string) (ws : list string) : list string :=
  filter (λ w, w ≠ word) ws.

(** [enforce_node_consistency]: the loop visits each key once and touches
    only that key's set. *)
Definition enforce_node_consistency (domains : Domains) : Domains :=
  map_imap (λ var ws,
    let invalid_words := filter (λ word, String.length word ≠ Var.length var) ws in
    Some (foldl (λ ws word, remove_word word ws) ws invalid_words)) domains.

(** The test under [any] in [revise]:
    [i < len(word_x) and j < len(word_y) and word_x[i] == word_y[j]]. *)
Definition matches (i j : nat) (word_x word_y : string) : bool :=
  bool_decide (i < String.length word_x)
  && bool_decide (j < String.length word_y)
  && bool_decide (String.get i word_x = String.get j word_y).

Section Creator.
Context (crossword : Crossword).

(** [__init__]: every variable starts with a copy of the word set. *)
Definition init_domains : Domains :=
  list_to_map ((λ var, (var, words crossword)) <$> variables crossword).

(** Modelled from the spec: [Crossword.neighbors] of crossword.py, which is
    not among the sources: the other variables with which [var] has a
    defined overlap. *)
Definition neighbors (var : Var.t) : list Var.t :=
  filter (λ v, v ≠ var ∧ is_Some (overlaps crossword var v)) (variables crossword).

(** Modelled from the spec: the keys of the overlap table, which
    crossword.py (not among the sources) fills: one entry, offsets or [None],
    for every pair of distinct variables of the puzzle.  [overlap_entry x y]
    is the subscript [self.crossword.overlaps[x, y]]: a key without entry
    raises [KeyError]. *)
Definition overlap_entry (x y : Var.t) : result (option (nat * nat)) :=
  match overlaps crossword x y with
  | Some overlap => Ok (Some overlap)
  | None =>
      if decide (x ∈ variables crossword ∧ y ∈ variables crossword ∧ x ≠ y)
      then Ok None
      else Raise KeyError
  end.

(** One turn of the loop of [revise].  The sets [domains[y]] and
    [domains[x]] are read from the store as it is at that turn. *)
Definition revise_step (x y : Var.t) (i j : nat)
    (st : bool * Domains) (word_x : string) : result (bool * Domains) :=
  dy ← lookup_key st.2 y;
  if existsb (matches i j word_x) dy then Ok st
  else dx ← lookup_key st.2 x;
       Ok (true, <[x := remove_word word_x dx]> st.2).

Definition revise (domains : Domains) (x y : Var.t) : result (bool * Domains) :=
  overlap ← overlap_entry x y;
  match overlap with
  | Some (i, j) =>
      dx ← lookup_key domains x;
      foldlM (revise_step x y i j) (false, domains) dx
  | None => Ok (false, domains)
  end.

(** The initial worklist of [ac3]. *)
Definition all_arcs : list Arc :=
  flat_map (λ x, (λ y, (x, y)) <$> filter (λ y, x ≠ y) (variables crossword))
    (variables crossword).

(** The [while arcs] loop of [ac3]. *)
Fixpoint ac3_loop (fuel : nat) (domains : Domains) (arcs : list Arc)
    : result (bool * Domains) :=
  match arcs with
  | [] => Ok (true, domains)
  | (x, y) :: arcs =>
      match fuel with
      | 0 => Diverge
      | S fuel =>
          '(revised, domains) ← revise domains x y;
          if revised : bool then
            dx ← lookup_key domains x;
            if bool_decide (dx = []) then Ok (false, domains)
            else ac3_loop fuel domains
                   (arcs ++ ((λ z, (z, x)) <$> filter (λ z, z ≠ y) (neighbors x)))
          else ac3_loop fuel domains arcs
      end
  end.

Definition total_size (domains : Domains) : nat :=
  map_fold (λ _ ws n, length ws + n) 0 domains.

(** Turns of the loop that suffice: a turn either shortens the worklist
    by one, or removes a word and lengthens the worklist by less than the
    number of variables. *)
Definition ac3_fuel (domains : Domains) (arcs : list Arc) : nat :=
  S (total_size domains * S (length (variables crossword)) + length arcs).

Definition ac3 (domains : Domains) (arcs : option (list Arc)) : result (bool * Domains) :=
  let arcs := match arcs with None => all_arcs | Some arcs => arcs end in
  ac3_loop (ac3_fuel domains arcs) domains arcs.

Definition assignment_complete (assignment : Assignment) : bool :=
  bool_decide (dom assignment = list_to_set (variables crossword)).

(** The test of the innermost loop of [consistent] on one pair of items;
    [false] is the early [return False]. *)
Definition agree (p : (Var.t * string) * (Var.t * string)) : result bool :=
  let '((var1, word1), (var2, word2)) := p in
  if decide (var1 ≠ var2) then
    match overlaps crossword var1 var2 with
    | Some (o0, o1) =>
        c1 ← index word1 o0;
        c2 ← index word2 o1;
        Ok (bool_decide (c1 = c2))
    | None => Ok true
    end
  else Ok true.

Fixpoint all_agree (ps : list ((Var.t * string) * (Var.t * string))) : result bool :=
  match ps with
  | [] => Ok true
  | p :: ps => b ← agree p; if b : bool then all_agree ps else Ok false
  end.

Definition consistent (assignment : Assignment) : result bool :=
  let items := map_to_list assignment in
  let values := items.*2 in
  if bool_decide (size (list_to_set values : gset string) ≠ length values) then Ok false
  else if existsb (λ it : Var.t * string,
                     bool_decide (Var.length it.1 ≠ String.length it.2)) items
  then Ok false
  else all_agree (list_prod items items).

(** [count_conflicts] of [order_domain_values]. *)
Definition count_conflicts (domains : Domains) (var : Var.t)
    (assignment : Assignment) (value : string) : result nat :=
  foldlM (λ count neighbor,
    if decide (assignment !! neighbor = None) then
      overlap ← overlap_entry var neighbor;
      neighbor_values ← lookup_key domains neighbor;
      foldlM (λ count neighbor_value,
        match overlap with
        | None => Raise TypeError
        | Some (o0, o1) =>
            c1 ← index value o0;
            c2 ← index neighbor_value o1;
            Ok (if decide (c1 ≠ c2) then S count else count)
        end) count neighbor_values
    else Ok count) 0 (neighbors var).

Definition order_domain_values (domains : Domains) (var : Var.t)
    (assignment : Assignment) : result (list string) :=
  domain_values ← lookup_key domains var;
  list_sort Nat.leb (count_conflicts domains var assignment) domain_values.

Definition num_remaining_values (domains : Domains) (variable : Var.t) : result nat :=
  ws ← lookup_key domains variable; Ok (length ws).

Definition select_unassigned_variable (domains : Domains) (assignment : Assignment)
    : result Var.t :=
  let unassigned_vars :=
    filter (λ var, assignment !! var = None) (variables crossword) in
  sorted ← list_sort tuple_le
              (λ var, n ← num_remaining_values domains var;
                      Ok (n, (- Z.of_nat (length (neighbors var)))%Z))
              unassigned_vars;
  match sorted with
  | [] => Raise IndexError
  | var :: _ => Ok var
  end.

(** [backtrack].  The dict [assignment] is one object shared by all
    recursive calls: a call that returns [None] has deleted every key it
    added, so on failure the caller sees the dict it passed, and a call
    that succeeds returns that same dict.  Hence [if result] tests the
    dict returned, and were it empty, [del assignment[var]] would raise
    [KeyError]. *)
Fixpoint backtrack (fuel : nat) (domains : Domains) (assignment : Assignment)
    : result (option Assignment) :=
  match fuel with
  | 0 => Diverge
  | S fuel =>
      if assignment_complete assignment then Ok (Some assignment)
      else
        var ← select_unassigned_variable domains assignment;
        values ← order_domain_values domains var assignment;
        (fix try_values (values : list string) : result (option Assignment) :=
           match values with
           | [] => Ok None
           | value :: values =>
               c ← consistent assignment;
               if c : bool then
                 r ← backtrack fuel domains (<[var := value]> assignment);
                 match r with
                 | Some a => if decide (a = ∅) then Raise KeyError else Ok (Some a)
                 | None => try_values values
                 end
               else try_values values
           end) values
  end.

(** [solve], on the store [self.domains]. *)
Definition solve (domains : Domains) : result (option Assignment) :=
  let domains := enforce_node_consistency domains in
  '(_, domains) ← ac3 domains None;
  backtrack (S (length (variables crossword))) domains ∅.

(** A creator is built and then asked to solve. *)
Definition generate : result (option Assignment) := solve init_domains.
End Creator.

(** ** Two small puzzles

    [two_rows] is the grid with rows [___], [###], [___]: two across slots
    of length 3 that do not meet, and a single word. *)
Definition row0 : Var.t := Var.mk 0 0 ACROSS 3.
Definition row2 : Var.t := Var.mk 2 0 ACROSS 3.

Definition two_rows : Crossword :=
  {| variables := [row0; row2]; words := ["CAT"]; overlaps := cell_overlaps |}.

(** [hook] is the grid with rows [___], [##_], [##_]: an across slot whose
    last cell is the first cell of a down slot. *)
Definition col2 : Var.t := Var.mk 0 2 DOWN 3.

Definition hook (ws : list string) : Crossword :=
  {| variables := [row0; col2]; words := ws; overlaps := cell_overlaps |}.

(** [arch] is the grid with rows [___], [_#_], [_#_], [###], [___]: an
    across slot with a down slot hanging from each end, and an across slot
    apart from them. *)
Definition col0 : Var.t := Var.mk 0 0 DOWN 3.
Definition row4 : Var.t := Var.mk 4 0 ACROSS 3.

Definition arch : Crossword :=
  {| variables := [row4; col2; col0; row0];
     words := ["CAT"; "TOC"; "COT"];
     overlaps := cell_overlaps |}.

(** A store for [arch] in which every word has the length of its variable
    and the domains differ in size. *)
Definition arch_domains : Domains :=
  {[row4 := ["COT"]; col2 := ["CAT"; "TOC"; "COT"];
    col0 := ["CAT"; "TOC"]; row0 := ["CAT"; "TOC"]]}.

(** ** Predicates used in the statements *)

(** The word [wx] of [x] has a matching word in the domain [dy] of [y], for
    the overlap offsets [(i, j)]. *)
Definition supported (i j : nat) (dy : list string) (wx : string) : Prop :=
  ∃ wy, wy ∈ dy ∧ i < String.length wx ∧ j < String.length wy
        ∧ String.get i wx = String.get j wy.

#[global] Instance supported_dec i j dy wx : Decision (supported i j dy wx).
Proof.
  refine (cast_if (decide (Exists (λ wy, i < String.length wx ∧ j < String.length wy
                                         ∧ String.get i wx = String.get j wy) dy)));
    unfold supported; [apply Exists_exists in e; exact e|].
  intros He. apply n, Exists_exists, He.
Defined.

(** [after] has the keys of [before], and under each key a sublist of what
    [before] holds there. *)
Definition shrunk (before after : Domains) : Prop :=
  dom after = dom before
  ∧ ∀ var ws ws', before !! var = Some ws → after !! var = Some ws' → sublist ws' ws.

(** The operations of the solver that write to [self.domains]; the search
    ([select_unassigned_variable], [order_domain_values], [consistent],
    [backtrack]) only reads it. *)
Inductive domain_op (crossword : Crossword) : Domains → Domains → Prop :=
  | op_node domains :
      domain_op crossword domains (enforce_node_consistency domains)
  | op_revise domains x y r domains' :
      revise crossword domains x y = Ok (r, domains') →
      domain_op crossword domains domains'
  | op_ac3 domains arcs r domains' :
      ac3 crossword domains arcs = Ok (r, domains') →
      domain_op crossword domains domains'.

(** The overlap of [(y, x)] is that of [(x, y)] with the offsets swapped. *)
Definition symmetric_overlaps (crossword : Crossword) : Prop :=
  ∀ x y, x ∈ variables crossword → y ∈ variables crossword →
         overlaps crossword y x = prod_swap <$> overlaps crossword x y.

(** Arcs as [ac3] builds them: between two distinct variables. *)
Definition proper_arc (crossword : Crossword) (a : Arc) : Prop :=
  a.1 ∈ variables crossword ∧ a.2 ∈ variables crossword ∧ a.1 ≠ a.2.

(** The arc [(x, y)] is consistent in a store: every word of [x] has a
    matching word in the domain of [y]. *)
Definition arc_consistent (crossword : Crossword) (domains : Domains)
    (x y : Var.t) : Prop :=
  ∀ i j dx wx,
    overlaps crossword x y = Some (i, j) →
    domains !! x = Some dx → wx ∈ dx →
    ∃ dy, domains !! y = Some dy ∧ supported i j dy wx.

(** Invariant of the loop of [ac3]: every arc between distinct variables
    that is not waiting in the worklist is consistent. *)
Definition worklist_inv (crossword : Crossword) (domains : Domains)
    (arcs : list Arc) : Prop :=
  ∀ x y, x ∈ variables crossword → y ∈ variables crossword → x ≠ y →
         (x, y) ∉ arcs → arc_consistent crossword domains x y.

(** The store after [enforce_node_consistency]. *)
Definition node_consistent (domains : Domains) : Prop :=
  ∀ var ws w, domains !! var = Some ws → w ∈ ws → String.length w = Var.length var.

(** Offsets of an overlap point inside both variables. *)
Definition overlaps_in_range (crossword : Crossword) : Prop :=
  ∀ x y i j, overlaps crossword x y = Some (i, j) → i < Var.length x ∧ j < Var.length y.

(** Number of words of [neighbor]'s domain that disagree with [value] at
    the overlap of [(var, neighbor)]. *)
Definition disagreements (crossword : Crossword) (domains : Domains)
    (var : Var.t) (value : string) (neighbor : Var.t) : nat :=
  match overlaps crossword var neighbor, domains !! neighbor with
  | Some (i, j), Some ws =>
      length (filter (λ w, String.get i value ≠ String.get j w) ws)
  | _, _ => 0
  end.

(** The total over the unassigned neighbours of [var]. *)
Definition total_conflicts (crossword : Crossword) (domains : Domains)
    (assignment : Assignment) (var : Var.t) (value : string) : nat :=
  sum_list (disagreements crossword domains var value
              <$> filter (λ n, assignment !! n = None) (neighbors crossword var)).

(** The store has an entry for every variable, as [__init__] builds it. *)
Definition covers (crossword : Crossword) (domains : Domains) : Prop :=
  ∀ var, var ∈ variables crossword → is_Some (domains !! var).

(** The variables without an entry in the assignment. *)
Definition unassigned (crossword : Crossword) (assignment : Assignment) : list Var.t :=
  filter (λ var, assignment !! var = None) (variables crossword).

(** Every assigned word is a member of its variable's domain. *)
Definition drawn_from (domains : Domains) (assignment : Assignment) : Prop :=
  ∀ var w, assignment !! var = Some w → ∃ ws, domains !! var = Some ws ∧ w ∈ ws.

(** The three conditions [consistent] tests: no word is used twice, every
    word has the length of its variable, and two overlapping variables
    carry the same character at their overlap. *)
Definition distinct_values (assignment : Assignment) : Prop :=
  ∀ v1 v2 w, assignment !! v1 = Some w → assignment !! v2 = Some w → v1 = v2.

Definition lengths_fit (assignment : Assignment) : Prop :=
  ∀ v w, assignment !! v = Some w → Var.length v = String.length w.

Definition overlaps_agree (crossword : Crossword) (assignment : Assignment) : Prop :=
  ∀ v1 v2 w1 w2 i j,
    v1 ≠ v2 → assignment !! v1 = Some w1 → assignment !! v2 = Some w2 →
    overlaps crossword v1 v2 = Some (i, j) →
    String.get i w1 = String.get j w2.

(** Every key of the assignment is a variable of the puzzle. *)
Definition within (crossword : Crossword) (assignment : Assignment) : Prop :=
  ∀ v, is_Some (assignment !! v) → v ∈ variables crossword.

(** ** The letter grid *)

(** What [letter_grid] reads of the crossword besides the assignment: the
    attributes [height] and [width] of the same object. *)
Record Grid := { height : nat; width : nat }.

(** A 2D array of letters; [None] is Python's [None]. *)
Abbreviation Letters := (list (list (option Ascii.ascii))).

(** The cell a variable covers at offset [k], as [letter_grid] computes it. *)
Definition cell (variable : Var.t) (k : nat) : nat * nat :=
  (Var.i variable + (if decide (Var.direction variable = DOWN) then k else 0),
   Var.j variable + (if decide (Var.direction variable = ACROSS) then k else 0)).

(** [letters[i][j] = c]: either index past the end raises [IndexError]. *)
Definition set_letter (letters : Letters) (i j : nat) (c : Ascii.ascii) : result Letters :=
  match letters !! i with
  | None => Raise IndexError
  | Some row =>
      if decide (j < length row) then Ok (<[i := <[j := Some c]> row]> letters)
      else Raise IndexError
  end.

(** The inner loop of [letter_grid], over [range(len(word))]. *)
Definition place_word (letters : Letters) (variable : Var.t) (word : string)
    : result Letters :=
  foldlM (λ letters k,
            c ← index word k;
            set_letter letters (cell variable k).1 (cell variable k).2 c)
    letters (seq 0 (String.length word)).

Definition letter_grid (grid : Grid) (assignment : Assignment) : result Letters :=
  let letters := replicate (height grid) (replicate (width grid) None) in
  foldlM (λ letters item, place_word letters item.1 item.2)
    letters (map_to_list assignment).

(** [letters[r][c]], when both indices are in range. *)
Definition letter_at (letters : Letters) (r c : nat) : option (option Ascii.ascii) :=
  row ← letters !! r; row !! c.

(** The writes [letter_grid] makes for one word: cell and character. *)
Definition writes_of (variable : Var.t) (word : string)
    : list ((nat * nat) * Ascii.ascii) :=
  omap (λ k, c ← String.get k word; Some (cell variable k, c))
    (seq 0 (String.length word)).

(** All rows present, all of the same width. *)
Definition shaped (h w : nat) (letters : Letters) : Prop :=
  length letters = h ∧ Forall (λ row, length row = w) letters.

(** Every cell [letter_grid] writes to lies inside the grid. *)
Definition in_bounds (grid : Grid) (assignment : Assignment) : Prop :=
  ∀ variable word k,
    assignment !! variable = Some word → k < String.length word →
    (cell variable k).1 < height grid ∧ (cell variable k).2 < width grid.

(** Two words that cover the same cell carry the same character there. *)
Definition cells_agree (assignment : Assignment) : Prop :=
  ∀ v1 w1 k1 c1 v2 w2 k2 c2,
    assignment !! v1 = Some w1 → assignment !! v2 = Some w2 →
    cell v1 k1 = cell v2 k2 →
    String.get k1 w1 = Some c1 → String.get k2 w2 = Some c2 → c1 = c2.

(** A valid fill of [hook], and the 3 by 3 grid it lives in. *)
Definition hook_fill : Assignment := {[row0 := "CAT"; col2 := "TOC"]}.

Definition board3 : Grid := {| height := 3; width := 3 |}.

(** The first character of a string, as a cell of the letter grid. *)
Definition letter (s : string) : option Ascii.ascii := String.get 0 s.

(** The letters of [hook_fill] on [board3]. *)
Definition hook_letters : Letters :=
  [[letter "C"; letter "A"; letter "T"];
   [None; None; letter "O"];
   [None; None; letter "C"]].

(** A puzzle without variables. *)
Definition blank : Crossword :=
  {| variables := []; words := ["CAT"]; overlaps := cell_overlaps |}.

(** * Properties *)

(** ** Lists *)

Lemma filter_ext_in {A} (P Q : A → Prop) `{∀ x, Decision (P x)} `{∀ x, Decision (Q x)}
    (l : list A) :
  (∀ x, x ∈ l → P x ↔ Q x) → filter P l = filter Q l.
Proof.
  induction l as [|a l IH]; intros Hl; [done|].
  rewrite !filter_cons.
  rewrite IH by (intros x Hx; apply Hl; by right).
  destruct (decide (P a)) as [Hp|Hp], (decide (Q a)) as [Hq|Hq]; try done.
  - exfalso. apply Hq, Hl; [left|done].
  - exfalso. apply Hp, Hl; [left|done].
Qed.

Lemma filter_all {A} (P : A → Prop) `{∀ x, Decision (P x)} (l : list A) :
  (∀ x, x ∈ l → P x) → filter P l = l.
Proof.
  induction l as [|a l IH]; intros Hl; [done|].
  rewrite filter_cons_True by (apply Hl; left).
  f_equal. apply IH. intros x Hx. apply Hl. by right.
Qed.

Lemma filter_none {A} (P : A → Prop) `{∀ x, Decision (P x)} (l : list A) :
  (∀ x, x ∈ l → ¬ P x) → filter P l = [].
Proof.
  induction l as [|a l IH]; intros Hl; [done|].
  rewrite filter_cons_False by (apply Hl; left).
  apply IH. intros x Hx. apply Hl. by right.
Qed.

(** ** Node consistency *)

Lemma foldl_remove_word (l cur : list string) :
  foldl (λ ws word, remove_word word ws) cur l = filter (λ w, w ∉ l) cur.
Proof.
  revert cur. induction l as [|word l IH]; intros cur; simpl.
  - symmetry. apply filter_all. intros w _. apply not_elem_of_nil.
  - rewrite IH. unfold remove_word. rewrite list_filter_filter.
    apply filter_ext_in. intros w _. rewrite not_elem_of_cons. tauto.
Qed.

Lemma node_consistent_words (n : nat) (ws : list string) :
  foldl (λ ws word, remove_word word ws) ws
    (filter (λ word, String.length word ≠ n) ws)
  = filter (λ word, String.length word = n) ws.
Proof.
  rewrite foldl_remove_word. apply filter_ext_in. intros w Hw.
  rewrite list_elem_of_filter. split.
  - intros Hn. destruct (decide (String.length w = n)); [done|]. exfalso. by apply Hn.
  - intros Heq [Hne _]. done.
Qed.

Lemma enforce_node_consistency_lookup (domains : Domains) (var : Var.t) :
  enforce_node_consistency domains !! var
  = filter (λ word, String.length word = Var.length var) <$> domains !! var.
Proof.
  unfold enforce_node_consistency. rewrite map_lookup_imap.
  destruct (domains !! var) as [ws|]; [|done]. simpl.
  by rewrite node_consistent_words.
Qed.

(** C9.  [enforce_node_consistency] is idempotent, and leaves under each
    key the words whose length is the length of the variable. *)
Theorem enforce_node_consistency_idempotent (domains : Domains) :
  enforce_node_consistency (enforce_node_consistency domains)
  = enforce_node_consistency domains
  ∧ ∀ var, enforce_node_consistency domains !! var
           = filter (λ word, String.length word = Var.length var) <$> domains !! var.
Proof.
  split; [|apply enforce_node_consistency_lookup].
  apply map_eq. intros var. rewrite !enforce_node_consistency_lookup.
  destruct (domains !! var) as [ws|]; [|done]. simpl. f_equal.
  apply filter_all. intros w Hw. by apply list_elem_of_filter in Hw as [? _].
Qed.

(** ** The result monad *)

Lemma bind_Ok {A B} (f : A → result B) (a : A) : Ok a ≫= f = f a.
Proof. reflexivity. Qed.

Lemma bind_Raise {A B} (f : A → result B) (e : exn) : Raise e ≫= f = Raise e.
Proof. reflexivity. Qed.

Lemma bind_Diverge {A B} (f : A → result B) : Diverge ≫= f = Diverge.
Proof. reflexivity. Qed.

Lemma foldlM_cons {A B} (f : B → A → result B) (b : B) (x : A) (l : list A) :
  foldlM f b (x :: l) = f b x ≫= λ b', foldlM f b' l.
Proof. reflexivity. Qed.

Lemma foldlM_not_diverge {A B} (f : B → A → result B) (l : list A) (b : B) :
  (∀ b a, f b a ≠ Diverge) → foldlM f b l ≠ Diverge.
Proof.
  intros Hf. revert b. induction l as [|a l IH]; intros b; simpl; [done|].
  specialize (Hf b a). destruct (f b a) as [b'| |]; simpl; [apply IH|done|done].
Qed.

(** ** Arc revision *)

Lemma revise_step_eq (x y : Var.t) (i j : nat) (r : bool) (domains : Domains) (w : string) :
  revise_step x y i j (r, domains) w
  = match domains !! y with
    | None => Raise KeyError
    | Some dy =>
        if existsb (matches i j w) dy then Ok (r, domains)
        else match domains !! x with
             | None => Raise KeyError
             | Some dx => Ok (true, <[x := remove_word w dx]> domains)
             end
    end.
Proof.
  unfold revise_step, lookup_key. simpl.
  destruct (domains !! y); [|done]. simpl.
  destruct (existsb _ _); [done|]. by destruct (domains !! x).
Qed.

Lemma matches_spec (i j : nat) (wx wy : string) :
  matches i j wx wy = true
  ↔ i < String.length wx ∧ j < String.length wy ∧ String.get i wx = String.get j wy.
Proof.
  unfold matches. rewrite !andb_true_iff, !bool_decide_eq_true. tauto.
Qed.

Lemma existsb_matches (i j : nat) (dy : list string) (wx : string) :
  existsb (matches i j wx) dy = true ↔ supported i j dy wx.
Proof.
  rewrite existsb_exists. unfold supported. split.
  - intros (wy & Hin & Hm). exists wy. rewrite list_elem_of_In. by rewrite <- matches_spec.
  - intros (wy & Hin & Hm). exists wy. rewrite <- list_elem_of_In. by rewrite matches_spec.
Qed.

Section Revise.
Context (crossword : Crossword).
Implicit Types (domains : Domains) (x y : Var.t).

Lemma overlap_entry_Some x y (p : nat * nat) :
  overlaps crossword x y = Some p → overlap_entry crossword x y = Ok (Some p).
Proof. intros Ho. unfold overlap_entry. by rewrite Ho. Qed.

Lemma overlap_entry_None x y :
  overlaps crossword x y = None →
  x ∈ variables crossword → y ∈ variables crossword → x ≠ y →
  overlap_entry crossword x y = Ok None.
Proof.
  intros Ho Hx Hy Hxy. unfold overlap_entry. rewrite Ho. by rewrite decide_True.
Qed.

(** [revise] once the overlap is read. *)
Lemma revise_Some domains x y i j :
  overlaps crossword x y = Some (i, j) →
  revise crossword domains x y
  = dx ← lookup_key domains x; foldlM (revise_step x y i j) (false, domains) dx.
Proof. intros Ho. unfold revise. by rewrite (overlap_entry_Some _ _ _ Ho), bind_Ok. Qed.

Lemma revise_None domains x y :
  overlaps crossword x y = None →
  x ∈ variables crossword → y ∈ variables crossword → x ≠ y →
  revise crossword domains x y = Ok (false, domains).
Proof.
  intros Ho Hx Hy Hxy. unfold revise. by rewrite overlap_entry_None, bind_Ok.
Qed.

Lemma revise_None_Ok domains x y st :
  overlaps crossword x y = None →
  revise crossword domains x y = Ok st → st = (false, domains).
Proof.
  intros Ho. unfold revise, overlap_entry. rewrite Ho.
  case_decide; [rewrite bind_Ok|rewrite bind_Raise]; congruence.
Qed.

Lemma revise_step_not_diverge x y i j st w :
  revise_step x y i j st w ≠ Diverge.
Proof.
  destruct st as [r d]. rewrite revise_step_eq.
  destruct (d !! y); [|done].
  destruct (existsb _ _); [done|]. by destruct (d !! x).
Qed.

Lemma revise_not_diverge domains x y : revise crossword domains x y ≠ Diverge.
Proof.
  destruct (overlaps crossword x y) as [[i j]|] eqn:Ho.
  2:{ unfold revise, overlap_entry. rewrite Ho. by case_decide. }
  rewrite (revise_Some _ _ _ _ _ Ho).
  unfold lookup_key. destruct (domains !! x); simpl; [|done].
  apply foldlM_not_diverge. intros. apply revise_step_not_diverge.
Qed.

(** The loop of [revise] only ever rewrites the entry of [x], to a
    sublist of what it held, shorter as soon as the flag is raised. *)
Lemma revise_loop_shrinks domains x y i j ws (l : list string) :
  (∀ w, w ∈ l → w ∈ ws) →
  ∀ r cur st',
    sublist cur ws →
    (r = false ∧ cur = ws) ∨ (r = true ∧ length cur < length ws) →
    foldlM (revise_step x y i j) (r, <[x := cur]> domains) l = Ok st' →
    ∃ cur', st'.2 = <[x := cur']> domains ∧ sublist cur' ws
            ∧ ((st'.1 = false ∧ cur' = ws) ∨ (st'.1 = true ∧ length cur' < length ws)).
Proof.
  induction l as [|w l IH]; intros Hl r cur st' Hsub Hr.
  - simpl. intros [= <-]. exists cur. simpl. done.
  - rewrite foldlM_cons, revise_step_eq.
    destruct (<[x:=cur]> domains !! y) as [dy|]; [|done].
    destruct (existsb (matches i j w) dy).
    + rewrite bind_Ok. apply IH; [|done|done]. intros w' Hw'. apply Hl. by right.
    + rewrite lookup_insert_eq, bind_Ok, insert_insert_eq.
      apply IH.
      * intros w' Hw'. apply Hl. by right.
      * etrans; [apply sublist_filter|done].
      * right. split; [done|].
        destruct Hr as [[_ ->]|[_ Hlt]].
        -- apply (length_filter_lt _ _ w); [apply Hl; left|]. by intros Hn.
        -- eapply Nat.le_lt_trans; [apply length_filter|done].
Qed.

Lemma revise_shrinks domains x y r domains' :
  revise crossword domains x y = Ok (r, domains') →
  (r = false ∧ domains' = domains)
  ∨ (r = true ∧ ∃ ws ws', domains !! x = Some ws ∧ domains' = <[x := ws']> domains
                          ∧ sublist ws' ws ∧ length ws' < length ws).
Proof.
  destruct (overlaps crossword x y) as [[i j]|] eqn:Ho.
  2:{ intros [= <- <-]%revise_None_Ok; [|done]. by left. }
  rewrite (revise_Some _ _ _ _ _ Ho).
  unfold lookup_key. destruct (domains !! x) as [ws|] eqn:Hx; simpl; [|done].
  intros Hf. rewrite <- (insert_id domains x ws Hx) in Hf at 1.
  apply (revise_loop_shrinks domains x y i j ws) in Hf as (cur' & H2 & Hsub & Hr);
    [|done|done|by left].
  simpl in *. destruct Hr as [[-> ->]|[-> Hlt]].
  - left. split; [done|]. subst. by apply insert_id.
  - right. split; [done|]. by exists ws, cur'.
Qed.

Lemma revise_loop_exact domains x y i j dy :
  x ≠ y → domains !! y = Some dy →
  ∀ (l : list string) r cur,
    foldlM (revise_step x y i j) (r, <[x := cur]> domains) l
    = Ok (r || existsb (λ w, negb (existsb (matches i j w) dy)) l,
          <[x := filter (λ w, supported i j dy w ∨ w ∉ l) cur]> domains).
Proof.
  intros Hxy Hy. induction l as [|w l IH]; intros r cur.
  - simpl. rewrite orb_false_r. do 3 f_equal. symmetry. apply filter_all.
    intros w _. right. apply not_elem_of_nil.
  - rewrite foldlM_cons, revise_step_eq.
    rewrite lookup_insert_ne, Hy by done.
    cbn [existsb]. destruct (existsb (matches i j w) dy) eqn:Hm; rewrite ?bind_Ok.
    + rewrite IH. simpl. do 3 f_equal. apply filter_ext_in. intros w' _.
      rewrite not_elem_of_cons. apply existsb_matches in Hm.
      split; [|tauto]. intros [?|?]; [by left|].
      destruct (decide (w' = w)) as [->|]; [by left|by right].
    + rewrite lookup_insert_eq, bind_Ok, insert_insert_eq, IH. simpl.
      rewrite orb_true_r. do 3 f_equal. unfold remove_word.
      rewrite list_filter_filter. apply filter_ext_in. intros w' _.
      rewrite not_elem_of_cons.
      assert (¬ supported i j dy w) as Hn.
      { rewrite <- existsb_matches. by rewrite Hm. }
      split; [tauto|]. intros [Hs|[? ?]]; [|tauto].
      split; [by left|]. by intros ->.
Qed.

Lemma revise_exact domains x y i j dx dy :
  overlaps crossword x y = Some (i, j) → x ≠ y →
  domains !! x = Some dx → domains !! y = Some dy →
  revise crossword domains x y
  = Ok (existsb (λ w, negb (existsb (matches i j w) dy)) dx,
        <[x := filter (supported i j dy) dx]> domains).
Proof.
  intros Ho Hxy Hx Hy. rewrite (revise_Some _ _ _ _ _ Ho).
  unfold lookup_key. rewrite Hx. simpl.
  rewrite <- (insert_id domains x dx Hx) at 1.
  rewrite (revise_loop_exact domains x y i j dy) by done. simpl.
  do 3 f_equal. apply filter_ext_in. intros w Hw. tauto.
Qed.
End Revise.

(** C4.  [revise(x, y)] for two distinct variables with overlap [(i, j)]
    keeps in the domain of [x] exactly the words [wx] for which some [wy] of
    the domain of [y] has [i < len(wx)], [j < len(wy)] and [wx[i] = wy[j]],
    raises nothing, and returns [True] iff a word was removed; for two
    distinct variables of the puzzle without an overlap it returns [False]
    and leaves the store as it is.  (The overlap table has entries for pairs
    of distinct variables only: [revise(x, x)] raises [KeyError].) *)
Theorem revise_removes_unsupported (crossword : Crossword) (domains : Domains)
    (x y : Var.t) :
  (∀ i j dx dy,
     overlaps crossword x y = Some (i, j) → x ≠ y →
     domains !! x = Some dx → domains !! y = Some dy →
     ∃ revised dx',
       revise crossword domains x y = Ok (revised, <[x := dx']> domains)
       ∧ (∀ wx, wx ∈ dx' ↔
            wx ∈ dx ∧ ∃ wy, wy ∈ dy ∧ i < String.length wx ∧ j < String.length wy
                            ∧ String.get i wx = String.get j wy)
       ∧ (revised = true ↔ ∃ wx, wx ∈ dx ∧ wx ∉ dx'))
  ∧ (overlaps crossword x y = None →
     x ∈ variables crossword → y ∈ variables crossword → x ≠ y →
     revise crossword domains x y = Ok (false, domains)).
Proof.
  split.
  - intros i j dx dy Ho Hxy Hx Hy.
    exists (existsb (λ w, negb (existsb (matches i j w) dy)) dx),
           (filter (supported i j dy) dx).
    split; [by apply revise_exact|]. split.
    + intros wx. rewrite list_elem_of_filter. unfold supported. tauto.
    + rewrite existsb_exists. split.
      * intros (wx & Hin & Hneg). exists wx. apply list_elem_of_In in Hin.
        split; [done|]. rewrite list_elem_of_filter, <- existsb_matches.
        intros [Hs _]. rewrite Hs in Hneg. done.
      * intros (wx & Hin & Hnot). exists wx. split; [by apply list_elem_of_In|].
        apply negb_true_iff, not_true_is_false. intros Hs. apply Hnot.
        apply list_elem_of_filter. split; [|done]. by apply existsb_matches.
  - apply revise_None.
Qed.

Lemma revise_removes_unsupported_witness :
  (∃ revised dx',
     revise (hook ["CAT"; "TOC"; "DOG"])
       {[row0 := ["CAT"; "TOC"; "DOG"]; col2 := ["CAT"; "TOC"; "DOG"]]} row0 col2
     = Ok (revised,
           <[row0 := dx']> {[row0 := ["CAT"; "TOC"; "DOG"]; col2 := ["CAT"; "TOC"; "DOG"]]})
     ∧ (∀ wx, wx ∈ dx' ↔
          wx ∈ ["CAT"; "TOC"; "DOG"]
          ∧ ∃ wy, wy ∈ ["CAT"; "TOC"; "DOG"] ∧ 2 < String.length wx ∧ 0 < String.length wy
                  ∧ String.get 2 wx = String.get 0 wy)
     ∧ (revised = true ↔ ∃ wx, wx ∈ ["CAT"; "TOC"; "DOG"] ∧ wx ∉ dx'))
  ∧ revise two_rows {[row0 := ["CAT"]; row2 := ["CAT"]]} row0 row2
    = Ok (false, {[row0 := ["CAT"]; row2 := ["CAT"]]}).
Proof.
  split.
  - apply (proj1 (revise_removes_unsupported (hook ["CAT"; "TOC"; "DOG"])
                    {[row0 := ["CAT"; "TOC"; "DOG"]; col2 := ["CAT"; "TOC"; "DOG"]]}
                    row0 col2)).
    + vm_compute. reflexivity.
    + discriminate.
    + vm_compute. reflexivity.
    + vm_compute. reflexivity.
  - apply (proj2 (revise_removes_unsupported two_rows
                    {[row0 := ["CAT"]; row2 := ["CAT"]]} row0 row2)).
    + vm_compute. reflexivity.
    + left.
    + right. left.
    + discriminate.
Defined.

(** C10.  [revise(x, y)] writes to the domain of [x] only: every other
    entry of the store is the same after the call.  The puzzle model is an
    argument of [revise] and no part of its result. *)
Theorem revise_frame (crossword : Crossword) (domains domains' : Domains)
    (x y : Var.t) (revised : bool) :
  revise crossword domains x y = Ok (revised, domains') →
  ∀ v, v ≠ x → domains' !! v = domains !! v.
Proof.
  intros [[_ ->]|(_ & ws & ws' & _ & -> & _)]%revise_shrinks v Hv; [done|].
  by rewrite lookup_insert_ne.
Qed.

Lemma revise_frame_witness :
  revise (hook ["CAT"; "TOC"; "DOG"])
    {[row0 := ["CAT"; "TOC"; "DOG"]; col2 := ["CAT"; "TOC"; "DOG"]]} row0 col2
  = Ok (true, {[row0 := ["CAT"; "TOC"]; col2 := ["CAT"; "TOC"; "DOG"]]})
  ∧ ∀ v, v ≠ row0 →
         ({[row0 := ["CAT"; "TOC"]; col2 := ["CAT"; "TOC"; "DOG"]]} : Domains) !! v
         = ({[row0 := ["CAT"; "TOC"; "DOG"]; col2 := ["CAT"; "TOC"; "DOG"]]} : Domains) !! v.
Proof.
  split; [vm_compute; reflexivity|].
  apply (revise_frame (hook ["CAT"; "TOC"; "DOG"]) _ _ row0 col2 true).
  vm_compute. reflexivity.
Defined.

(** ** Size of the store, and termination of AC-3 *)

Lemma total_size_insert_fresh (domains : Domains) (x : Var.t) (ws : list string) :
  domains !! x = None →
  total_size (<[x := ws]> domains) = length ws + total_size domains.
Proof.
  intros Hx. unfold total_size.
  rewrite (map_fold_insert_L (λ _ ws n, length ws + n) 0 x ws domains); [done| |done].
  intros. lia.
Qed.

Lemma total_size_insert (domains : Domains) (x : Var.t) (ws ws' : list string) :
  domains !! x = Some ws →
  total_size (<[x := ws']> domains) + length ws = total_size domains + length ws'.
Proof.
  intros Hx.
  rewrite <- (insert_id domains x ws Hx) at 2.
  rewrite <- (insert_delete_eq domains x ws').
  rewrite <- (insert_delete_eq domains x ws).
  rewrite !total_size_insert_fresh by apply lookup_delete_eq. lia.
Qed.

Section AC3_termination.
Context (crossword : Crossword).
Implicit Types (domains : Domains) (arcs : list Arc).

Lemma neighbors_length (x : Var.t) :
  length (neighbors crossword x) ≤ length (variables crossword).
Proof. apply length_filter. Qed.

Lemma ac3_loop_terminates (fuel : nat) :
  ∀ domains arcs,
    total_size domains * S (length (variables crossword)) + length arcs < fuel →
    ac3_loop crossword fuel domains arcs ≠ Diverge.
Proof.
  induction fuel as [|fuel IH]; intros domains arcs Hfuel; [lia|].
  destruct arcs as [|[x y] arcs]; [done|]. cbn [ac3_loop].
  destruct (revise crossword domains x y) as [[r d1]| |] eqn:Hrev;
    [|done|by apply revise_not_diverge in Hrev].
  rewrite bind_Ok. cbn [length] in Hfuel.
  apply revise_shrinks in Hrev as [[-> ->]|(-> & ws & ws' & Hx & -> & _ & Hlt)].
  - apply IH. lia.
  - unfold lookup_key. rewrite lookup_insert_eq, bind_Ok.
    case_bool_decide; [done|]. apply IH.
    pose proof (total_size_insert domains x ws ws' Hx) as Hsz.
    rewrite length_app, length_fmap.
    pose proof (length_filter (λ z, z ≠ y) (neighbors crossword x)).
    pose proof (neighbors_length x).
    nia.
Qed.

Lemma ac3_terminates domains (arcs : option (list Arc)) :
  ac3 crossword domains arcs ≠ Diverge.
Proof. unfold ac3. apply ac3_loop_terminates. unfold ac3_fuel. lia. Qed.
End AC3_termination.

(** ** Domains only shrink *)

Lemma shrunk_refl (domains : Domains) : shrunk domains domains.
Proof. split; [done|]. intros var ws ws' H1 H2. by simplify_eq. Qed.

Lemma shrunk_trans (d1 d2 d3 : Domains) : shrunk d1 d2 → shrunk d2 d3 → shrunk d1 d3.
Proof.
  intros [Hd12 H12] [Hd23 H23]. split; [congruence|].
  intros var ws ws3 H1 H3.
  assert (is_Some (d2 !! var)) as [ws2 H2].
  { apply elem_of_dom. rewrite Hd12. apply elem_of_dom. eauto. }
  etrans; [by eapply H23 | by eapply H12].
Qed.

Lemma shrunk_insert (domains : Domains) (x : Var.t) (ws ws' : list string) :
  domains !! x = Some ws → sublist ws' ws → shrunk domains (<[x := ws']> domains).
Proof.
  intros Hx Hsub. split.
  - apply dom_insert_lookup_L. eauto.
  - intros var ws1 ws2 H1 H2. destruct (decide (x = var)) as [->|Hne].
    + rewrite lookup_insert_eq in H2. by simplify_eq.
    + rewrite lookup_insert_ne in H2 by done. by simplify_eq.
Qed.

Lemma shrunk_subseteq (before after : Domains) (var : Var.t) (ws ws' : list string) :
  shrunk before after → before !! var = Some ws → after !! var = Some ws' → ws' ⊆ ws.
Proof. intros [_ H] H1 H2. apply sublist_subseteq. by eapply H. Qed.

Lemma enforce_node_consistency_shrunk (domains : Domains) :
  shrunk domains (enforce_node_consistency domains).
Proof.
  split.
  - apply set_eq. intros var. rewrite !elem_of_dom, enforce_node_consistency_lookup.
    by rewrite fmap_is_Some.
  - intros var ws ws' H1. rewrite enforce_node_consistency_lookup, H1. simpl.
    intros [= <-]. apply sublist_filter.
Qed.

Section Shrinking.
Context (crossword : Crossword).
Implicit Types (domains : Domains) (arcs : list Arc).

Lemma revise_shrunk domains x y r domains' :
  revise crossword domains x y = Ok (r, domains') → shrunk domains domains'.
Proof.
  intros [[_ ->]|(_ & ws & ws' & Hx & -> & Hsub & _)]%revise_shrinks.
  - apply shrunk_refl.
  - by eapply shrunk_insert.
Qed.

Lemma ac3_loop_shrunk (fuel : nat) :
  ∀ domains arcs r domains',
    ac3_loop crossword fuel domains arcs = Ok (r, domains') → shrunk domains domains'.
Proof.
  induction fuel as [|fuel IH]; intros domains arcs r domains'.
  - destruct arcs as [|[x y] arcs]; [|done]. intros [= <- <-]. apply shrunk_refl.
  - destruct arcs as [|[x y] arcs]; [intros [= <- <-]; apply shrunk_refl|].
    cbn [ac3_loop].
    destruct (revise crossword domains x y) as [[rv d1]| |] eqn:Hrev; [|done..].
    rewrite bind_Ok. apply revise_shrunk in Hrev. destruct rv.
    + unfold lookup_key. destruct (d1 !! x) as [dx|]; [|done]. rewrite bind_Ok.
      case_bool_decide.
      * intros [= <- <-]. done.
      * intros Hloop%IH. by eapply shrunk_trans.
    + intros Hloop%IH. by eapply shrunk_trans.
Qed.

Lemma ac3_shrunk domains (arcs : option (list Arc)) r domains' :
  ac3 crossword domains arcs = Ok (r, domains') → shrunk domains domains'.
Proof. apply ac3_loop_shrunk. Qed.
End Shrinking.

(** C6.  Along any sequence of the operations that write to the store
    ([enforce_node_consistency], [revise], [ac3] with any worklist), the
    keys stay the same and every domain at the end is a subset of the domain
    at the start; in particular so for one run of [ac3]. *)
Theorem domains_only_shrink (crossword : Crossword) (before after : Domains) :
  rtc (domain_op crossword) before after →
  dom after = dom before
  ∧ ∀ var ws ws', before !! var = Some ws → after !! var = Some ws' → ws' ⊆ ws.
Proof.
  intros Hops.
  assert (shrunk before after) as Hs.
  { induction Hops as [d|d1 d2 d3 Hop _ IH]; [apply shrunk_refl|].
    eapply shrunk_trans; [|exact IH].
    destruct Hop.
    - apply enforce_node_consistency_shrunk.
    - by eapply revise_shrunk.
    - by eapply ac3_shrunk. }
  split; [apply Hs|]. intros var ws ws' H1 H2. by eapply shrunk_subseteq.
Qed.

(** ** Soundness of AC-3 *)

Lemma matches_swap (i j : nat) (wx wy : string) :
  matches j i wy wx = matches i j wx wy.
Proof.
  apply eq_true_iff_eq. rewrite !matches_spec. intuition congruence.
Qed.

Section AC3_soundness.
Context (crossword : Crossword).
Context (Hsym : symmetric_overlaps crossword).
Implicit Types (domains : Domains) (arcs : list Arc) (x y : Var.t).

Lemma revise_arc_consistent domains x y r domains' :
  x ≠ y → revise crossword domains x y = Ok (r, domains') →
  arc_consistent crossword domains' x y.
Proof.
  intros Hxy Hrev i j dx' wx Ho Hx' Hwx.
  destruct (domains !! x) as [dx|] eqn:Hx.
  2:{ rewrite (revise_Some _ _ _ _ _ _ Ho) in Hrev. unfold lookup_key in Hrev.
      by rewrite Hx in Hrev. }
  destruct (domains !! y) as [dy|] eqn:Hy.
  - rewrite (revise_exact crossword domains x y i j dx dy) in Hrev by done.
    injection Hrev as <- <-. rewrite lookup_insert_eq in Hx'.
    injection Hx' as <-. apply list_elem_of_filter in Hwx as [Hs _].
    exists dy. by rewrite lookup_insert_ne.
  - rewrite (revise_Some _ _ _ _ _ _ Ho) in Hrev. unfold lookup_key in Hrev.
    rewrite Hx, bind_Ok in Hrev.
    destruct dx as [|w dx].
    + simpl in Hrev. injection Hrev as <- <-. rewrite Hx in Hx'.
      injection Hx' as <-. by apply elem_of_nil in Hwx.
    + rewrite foldlM_cons, revise_step_eq, Hy in Hrev. done.
Qed.

Lemma arc_consistent_other domains x ws' u v :
  u ≠ x → v ≠ x → arc_consistent crossword domains u v →
  arc_consistent crossword (<[x := ws']> domains) u v.
Proof.
  intros Hu Hv Huv i j du wu Ho. rewrite !lookup_insert_ne by done. by apply Huv.
Qed.

Lemma arc_consistent_from domains x ws ws' v :
  v ≠ x → domains !! x = Some ws → sublist ws' ws →
  arc_consistent crossword domains x v → arc_consistent crossword (<[x := ws']> domains) x v.
Proof.
  intros Hv Hx Hsub Hxv i j dx wx Ho. rewrite lookup_insert_eq, lookup_insert_ne by done.
  intros [= <-] Hwx. eapply Hxv; [done..|]. by eapply sublist_subseteq.
Qed.

Lemma revise_keeps_reverse_arc domains x y r domains' :
  proper_arc crossword (x, y) →
  revise crossword domains x y = Ok (r, domains') →
  arc_consistent crossword domains y x → arc_consistent crossword domains' y x.
Proof.
  intros (Hxv & Hyv & Hxy) Hrev Hyx j i dy wy Ho Hy' Hwy. simpl in *.
  pose proof (Hsym y x Hyv Hxv) as Hs. rewrite Ho in Hs. simpl in Hs.
  assert (domains !! y = Some dy) as Hy.
  { apply revise_shrinks in Hrev as [[_ ->]|(_ & ws & ws' & _ & -> & _)]; [done|].
    by rewrite lookup_insert_ne in Hy'. }
  destruct (Hyx j i dy wy Ho Hy Hwy) as (dx & Hx & wx & Hwx & Hm).
  rewrite (revise_exact crossword domains x y i j dx dy) in Hrev by done.
  injection Hrev as <- <-. rewrite lookup_insert_eq.
  eexists. split; [done|]. exists wx. split; [|done].
  apply list_elem_of_filter. split; [|done].
  exists wy. split; [done|]. intuition congruence.
Qed.

Lemma ac3_loop_sound (fuel : nat) :
  ∀ domains arcs domains',
    Forall (proper_arc crossword) arcs →
    worklist_inv crossword domains arcs →
    ac3_loop crossword fuel domains arcs = Ok (true, domains') →
    worklist_inv crossword domains' [].
Proof.
  induction fuel as [|fuel IH]; intros domains arcs domains' Hdist Hinv.
  { destruct arcs as [|[x y] arcs]; [|done]. by intros [= <-]. }
  destruct arcs as [|[x y] arcs]; [by intros [= <-]|].
  apply Forall_cons in Hdist as [Hprop Hdist].
  pose proof Hprop as (Hxv & Hyv & Hxy). simpl in Hxv, Hyv, Hxy.
  cbn [ac3_loop].
  destruct (revise crossword domains x y) as [[rv d1]| |] eqn:Hrev; [|done..].
  rewrite bind_Ok.
  pose proof (revise_arc_consistent _ _ _ _ _ Hxy Hrev) as Hnew.
  pose proof (revise_keeps_reverse_arc _ _ _ _ _ Hprop Hrev) as Hrevarc.
  pose proof Hrev as Hshr.
  apply revise_shrinks in Hshr as [[-> ->]|(-> & ws & ws' & Hx & -> & Hsub & _)].
  - apply IH; [done|]. intros u v Hu Hv Huv Hnotin.
    destruct (decide ((u, v) = (x, y))) as [[= -> ->]|Hne]; [done|].
    apply Hinv; [done..|]. rewrite not_elem_of_cons. done.
  - unfold lookup_key. rewrite lookup_insert_eq, bind_Ok.
    case_bool_decide; [done|]. apply IH.
    + apply Forall_app. split; [done|]. apply Forall_fmap, Forall_forall.
      intros z Hz. apply list_elem_of_filter in Hz as [_ Hz].
      apply list_elem_of_filter in Hz as [[Hz _] Hzv]. done.
    + intros u v Hu Hv Huv Hnotin.
      rewrite not_elem_of_app in Hnotin. destruct Hnotin as [Hnotin Hnew_arcs].
      destruct (decide ((u, v) = (x, y))) as [[= -> ->]|Hne]; [done|].
      assert (arc_consistent crossword domains u v) as Hold.
      { apply Hinv; [done..|]. rewrite not_elem_of_cons. done. }
      destruct (decide (v = x)) as [->|Hvx].
      * (* an arc into [x] *)
        destruct (decide (u = y)) as [->|Huy]; [by apply Hrevarc|].
        destruct (overlaps crossword x u) as [p|] eqn:Hxu.
        -- exfalso. apply Hnew_arcs. apply (list_elem_of_fmap_2 (λ z, (z, x))).
           apply list_elem_of_filter. split; [done|].
           apply list_elem_of_filter. split; [|done]. split; [done|].
           by rewrite Hxu.
        -- intros i j du wu Ho. pose proof (Hsym x u Hxv Hu) as Hs.
           rewrite Hxu, Ho in Hs. done.
      * destruct (decide (u = x)) as [->|Hux].
        -- by eapply arc_consistent_from.
        -- by apply arc_consistent_other.
Qed.

Lemma all_arcs_complete x y :
  x ∈ variables crossword → y ∈ variables crossword → x ≠ y →
  (x, y) ∈ all_arcs crossword.
Proof.
  intros Hx Hy Hxy. unfold all_arcs. apply list_elem_of_In, in_flat_map.
  exists x. split; [by apply list_elem_of_In|]. apply list_elem_of_In.
  apply (list_elem_of_fmap_2 (λ y, (x, y))). by apply list_elem_of_filter.
Qed.

Lemma all_arcs_proper : Forall (proper_arc crossword) (all_arcs crossword).
Proof.
  apply Forall_forall. intros [x y] Hin. unfold all_arcs in Hin.
  apply list_elem_of_In, in_flat_map in Hin as (x' & Hx' & Hin).
  apply list_elem_of_In, list_elem_of_fmap in Hin as (y' & [= -> ->] & Hin).
  apply list_elem_of_filter in Hin as [? ?]. by apply list_elem_of_In in Hx'.
Qed.
End AC3_soundness.

(** C5.  If [ac3], called without a worklist ([arcs=None]) on a puzzle whose
    overlap table is symmetric, returns [True], then every word left in the
    domain of a variable [x] has, for every neighbour [y] of [x], a word in
    the domain of [y] that agrees with it at the overlap offsets of
    [(x, y)]. *)
Theorem ac3_sound (crossword : Crossword) (domains domains' : Domains) :
  symmetric_overlaps crossword →
  ac3 crossword domains None = Ok (true, domains') →
  ∀ x y dx wx,
    x ∈ variables crossword → y ∈ neighbors crossword x →
    domains' !! x = Some dx → wx ∈ dx →
    ∃ i j dy wy,
      overlaps crossword x y = Some (i, j)
      ∧ domains' !! y = Some dy ∧ wy ∈ dy
      ∧ i < String.length wx ∧ j < String.length wy
      ∧ String.get i wx = String.get j wy.
Proof.
  intros Hsym Hac3 x y dx wx Hx Hy Hdx Hwx.
  apply list_elem_of_filter in Hy as [[Hyx [[i j] Ho]] Hy].
  assert (worklist_inv crossword domains' []) as Hinv.
  { eapply (ac3_loop_sound crossword Hsym); [|..|exact Hac3].
    - apply all_arcs_proper.
    - intros u v Hu Hv Huv Hnotin. exfalso. apply Hnotin. by apply all_arcs_complete. }
  destruct (Hinv x y Hx Hy (not_eq_sym Hyx) (not_elem_of_nil _) i j dx wx Ho Hdx Hwx)
    as (dy & Hdy & wy & Hwy & Hm).
  exists i, j, dy, wy. done.
Qed.

(** ** The initial store, and AC-3 on a store that covers the variables *)

Lemma init_domains_lookup (crossword : Crossword) (var : Var.t) :
  var ∈ variables crossword →
  init_domains crossword !! var = Some (words crossword).
Proof.
  unfold init_domains. induction (variables crossword) as [|v vs IH]; intros Hin.
  - by apply elem_of_nil in Hin.
  - rewrite fmap_cons. cbn [list_to_map foldr]. 
    destruct (decide (v = var)) as [->|Hne].
    + apply lookup_insert_eq.
    + rewrite lookup_insert_ne by done. apply IH.
      apply elem_of_cons in Hin as [->|Hin]; done.
Qed.

Lemma init_domains_covers (crossword : Crossword) : covers crossword (init_domains crossword).
Proof. intros var Hvar. rewrite init_domains_lookup by done. eauto. Qed.

Lemma shrunk_covers (crossword : Crossword) (before after : Domains) :
  shrunk before after → covers crossword before → covers crossword after.
Proof.
  intros [Hdom _] Hc var Hvar. apply elem_of_dom. rewrite Hdom.
  apply elem_of_dom. by apply Hc.
Qed.

Lemma shrunk_empty (before after : Domains) (var : Var.t) :
  shrunk before after → before !! var = Some [] → after !! var = Some [].
Proof.
  intros [Hdom Hsub] Hvar.
  assert (is_Some (after !! var)) as [ws Hws].
  { apply elem_of_dom. rewrite Hdom. apply elem_of_dom. eauto. }
  rewrite Hws. f_equal. apply sublist_nil_r. by eapply Hsub.
Qed.

Lemma shrunk_node_consistent (before after : Domains) :
  shrunk before after → node_consistent before → node_consistent after.
Proof.
  intros [Hdom Hsub] Hnode var ws' w Hws' Hw.
  assert (is_Some (before !! var)) as [ws Hws].
  { apply elem_of_dom. rewrite <- Hdom. apply elem_of_dom. eauto. }
  apply (Hnode var ws w Hws). eapply sublist_subseteq; [|exact Hw]. by eapply Hsub.
Qed.

Lemma enforce_node_consistency_node_consistent (domains : Domains) :
  node_consistent (enforce_node_consistency domains).
Proof.
  intros var ws w. rewrite enforce_node_consistency_lookup.
  destruct (domains !! var) as [ws0|]; [|done]. simpl. intros [= <-].
  by intros [? _]%list_elem_of_filter.
Qed.

Section AC3_total.
Context (crossword : Crossword).
Implicit Types (domains : Domains) (arcs : list Arc) (x y : Var.t).

Lemma revise_loop_no_raise x y i j (l : list string) :
  ∀ st, is_Some (st.2 !! x) → is_Some (st.2 !! y) →
        ∀ e, foldlM (revise_step x y i j) st l ≠ Raise e.
Proof.
  induction l as [|w l IH]; intros [r d] Hx Hy e; [done|]. simpl in Hx, Hy.
  rewrite foldlM_cons, revise_step_eq.
  destruct Hy as [dy Hy]. rewrite Hy.
  destruct (existsb (matches i j w) dy).
  - rewrite bind_Ok. apply IH; simpl; eauto.
  - destruct Hx as [dx Hx]. rewrite Hx, bind_Ok. apply IH; simpl.
    + rewrite lookup_insert_eq. eauto.
    + apply lookup_insert_is_Some. destruct (decide (x = y)); eauto.
Qed.

Lemma revise_no_raise domains x y e :
  proper_arc crossword (x, y) →
  is_Some (domains !! x) → is_Some (domains !! y) →
  revise crossword domains x y ≠ Raise e.
Proof.
  intros (Hxv & Hyv & Hxy) Hx Hy. simpl in Hxv, Hyv, Hxy.
  destruct (overlaps crossword x y) as [[i j]|] eqn:Ho;
    [|by rewrite revise_None].
  rewrite (revise_Some _ _ _ _ _ _ Ho).
  unfold lookup_key. destruct Hx as [dx Hx]. rewrite Hx, bind_Ok.
  apply revise_loop_no_raise; simpl; eauto.
Qed.

Lemma new_arcs_proper x y :
  x ∈ variables crossword →
  Forall (proper_arc crossword)
    ((λ z, (z, x)) <$> filter (λ z, z ≠ y) (neighbors crossword x)).
Proof.
  intros Hx. apply Forall_fmap, Forall_forall. intros z Hz.
  apply list_elem_of_filter in Hz as [_ Hz].
  apply list_elem_of_filter in Hz as [[Hzx _] Hzv]. done.
Qed.

Lemma ac3_loop_no_raise (fuel : nat) :
  ∀ domains arcs e,
    covers crossword domains → Forall (proper_arc crossword) arcs →
    ac3_loop crossword fuel domains arcs ≠ Raise e.
Proof.
  induction fuel as [|fuel IH]; intros domains arcs e Hc Harcs.
  { by destruct arcs as [|[x y] arcs]. }
  destruct arcs as [|[x y] arcs]; [done|].
  apply Forall_cons in Harcs as [(Hx & Hy & Hxy) Harcs]. simpl in Hx, Hy.
  cbn [ac3_loop].
  pose proof (revise_no_raise domains x y) as Hnr.
  destruct (revise crossword domains x y) as [[r d1]|e'|] eqn:Hrev;
    [|exfalso; by eapply Hnr; eauto|done].
  rewrite bind_Ok. pose proof (revise_shrunk _ _ _ _ _ _ Hrev) as Hs.
  pose proof (shrunk_covers crossword _ _ Hs Hc) as Hc1.
  destruct r; [|by apply IH].
  unfold lookup_key. destruct (Hc1 x Hx) as [dx ->]. rewrite bind_Ok.
  case_bool_decide; [done|]. apply IH; [done|].
  apply Forall_app. split; [done|]. by apply new_arcs_proper.
Qed.

Lemma ac3_total domains :
  covers crossword domains → ∃ r domains', ac3 crossword domains None = Ok (r, domains').
Proof.
  intros Hc. pose proof (ac3_terminates crossword domains None) as Ht.
  pose proof (ac3_loop_no_raise (ac3_fuel crossword domains (all_arcs crossword))
                domains (all_arcs crossword)) as Hr.
  unfold ac3 in *. destruct (ac3_loop _ _ _ _) as [[r d]|e|]; [eauto| |done].
  exfalso. eapply Hr; [done| |done]. apply all_arcs_proper.
Qed.

Lemma ac3_loop_false (fuel : nat) :
  ∀ domains arcs domains',
    Forall (proper_arc crossword) arcs →
    ac3_loop crossword fuel domains arcs = Ok (false, domains') →
    ∃ x, x ∈ variables crossword ∧ domains' !! x = Some [].
Proof.
  induction fuel as [|fuel IH]; intros domains arcs domains' Harcs.
  { by destruct arcs as [|[x y] arcs]. }
  destruct arcs as [|[x y] arcs]; [done|].
  apply Forall_cons in Harcs as [(Hx & Hy & Hxy) Harcs]. simpl in Hx, Hy.
  cbn [ac3_loop].
  destruct (revise crossword domains x y) as [[r d1]| |]; [|done..].
  rewrite bind_Ok. destruct r; [|by apply IH].
  unfold lookup_key. destruct (d1 !! x) as [dx|] eqn:Hdx; [|done]. rewrite bind_Ok.
  case_bool_decide as Hempty.
  - intros [= <-]. exists x. by subst.
  - apply IH. apply Forall_app. split; [done|]. by apply new_arcs_proper.
Qed.
End AC3_total.

(** X6.  On a store with an entry for every variable, [ac3] called without
    a worklist returns: it neither raises nor runs out of fuel. *)
Theorem ac3_returns (crossword : Crossword) (domains : Domains) :
  covers crossword domains →
  ∃ r domains', ac3 crossword domains None = Ok (r, domains').
Proof. apply ac3_total. Qed.

(** ** Sorting *)

Section sorting_facts.
Context {K A : Type} (le : K → K → bool).
Context (le_total : ∀ a b, le a b = true ∨ le b a = true).
Context (le_trans : ∀ a b c, le a b = true → le b c = true → le a c = true).

Let R (a b : K * A) : Prop := le a.1 b.1 = true.

Lemma insert_by_key_perm (x : K * A) (l : list (K * A)) :
  insert_by_key le x l ≡ₚ x :: l.
Proof.
  induction l as [|y l IH]; [done|]. simpl.
  destruct (le x.1 y.1); [done|]. rewrite IH. apply Permutation_swap.
Qed.

Lemma sort_by_key_perm (l : list (K * A)) : sort_by_key le l ≡ₚ l.
Proof.
  induction l as [|x l IH]; [done|]. simpl.
  by rewrite insert_by_key_perm, IH.
Qed.

Lemma insert_by_key_sorted (x : K * A) (l : list (K * A)) :
  StronglySorted R l → StronglySorted R (insert_by_key le x l).
Proof.
  induction 1 as [|y l Hl IH Hy]; simpl.
  - repeat constructor.
  - destruct (le x.1 y.1) eqn:Hxy.
    + constructor; [by constructor|]. constructor; [done|].
      eapply Forall_impl; [exact Hy|]. intros z Hz. by eapply le_trans.
    + constructor; [done|].
      rewrite insert_by_key_perm. constructor; [|done].
      destruct (le_total x.1 y.1); [congruence|done].
Qed.

Lemma sort_by_key_sorted (l : list (K * A)) : StronglySorted R (sort_by_key le l).
Proof.
  induction l as [|x l IH]; [constructor|]. simpl. by apply insert_by_key_sorted.
Qed.

Lemma mapM_pure (key : A → result K) (k : A → K) (l : list A) :
  (∀ x, x ∈ l → key x = Ok (k x)) → mapM key l = Ok (k <$> l).
Proof.
  induction l as [|x l IH]; intros Hl; [done|]. simpl.
  rewrite (Hl x) by left. rewrite bind_Ok, IH; [done|].
  intros y Hy. apply Hl. by right.
Qed.

Lemma list_sort_pure (key : A → result K) (k : A → K) (l : list A) :
  (∀ x, x ∈ l → key x = Ok (k x)) →
  ∃ l', list_sort le key l = Ok l' ∧ l' ≡ₚ l
        ∧ StronglySorted (λ a b, le (k a) (k b) = true) l'.
Proof.
  intros Hkey. unfold list_sort. rewrite (mapM_pure key k l Hkey), bind_Ok.
  eexists. split; [done|]. split.
  - rewrite sort_by_key_perm. rewrite snd_zip; [done|]. by rewrite length_fmap.
  - assert (Forall (λ p : K * A, p.1 = k p.2) (sort_by_key le (zip (k <$> l) l))) as Hall.
    { rewrite sort_by_key_perm. clear Hkey. induction l as [|x l IH]; constructor; done. }
    pose proof (sort_by_key_sorted (zip (k <$> l) l)) as Hs.
    induction Hs as [|p ps Hps IH Hp]; [constructor|].
    apply Forall_cons in Hall as [Hp1 Hall]. simpl. constructor; [by apply IH|].
    apply Forall_fmap. rewrite Forall_forall in Hp, Hall. apply Forall_forall.
    intros q Hq. simpl. rewrite <- Hp1, <- (Hall q Hq). by apply Hp.
Qed.
End sorting_facts.

Lemma StronglySorted_mono {A} (R1 R2 : A → A → Prop) (l : list A) :
  (∀ a b, R1 a b → R2 a b) → StronglySorted R1 l → StronglySorted R2 l.
Proof.
  intros HR. induction 1 as [|x l Hl IH Hx]; constructor; [done|].
  eapply Forall_impl; [exact Hx|]. intros y. apply HR.
Qed.

Lemma tuple_le_total (a b : nat * Z) : tuple_le a b = true ∨ tuple_le b a = true.
Proof.
  unfold tuple_le.
  rewrite !orb_true_iff, !andb_true_iff, !Nat.ltb_lt, !Nat.eqb_eq, !Z.leb_le. lia.
Qed.

Lemma tuple_le_trans (a b c : nat * Z) :
  tuple_le a b = true → tuple_le b c = true → tuple_le a c = true.
Proof.
  unfold tuple_le.
  rewrite !orb_true_iff, !andb_true_iff, !Nat.ltb_lt, !Nat.eqb_eq, !Z.leb_le. lia.
Qed.

Lemma leb_total (a b : nat) : (a <=? b) = true ∨ (b <=? a) = true.
Proof. rewrite !Nat.leb_le. lia. Qed.

Lemma leb_trans (a b c : nat) : (a <=? b) = true → (b <=? c) = true → (a <=? c) = true.
Proof. rewrite !Nat.leb_le. lia. Qed.

(** ** The heuristics *)

Lemma get_in_range (s : string) (k : nat) :
  k < String.length s → ∃ c, String.get k s = Some c.
Proof.
  revert k. induction s as [|a s IH]; intros k Hk; simpl in *; [lia|].
  destruct k as [|k]; [by eexists|]. apply IH. lia.
Qed.

Lemma index_in_range (s : string) (k : nat) :
  k < String.length s → ∃ c, index s k = Ok c ∧ String.get k s = Some c.
Proof.
  intros [c Hc]%get_in_range. exists c. unfold index. by rewrite Hc.
Qed.

Section Heuristics.
Context (crossword : Crossword) (domains : Domains) (assignment : Assignment).
Context (Hkeys : ∀ var, var ∈ variables crossword → is_Some (domains !! var)).

Lemma neighbors_variables var n :
  n ∈ neighbors crossword var → n ∈ variables crossword.
Proof. by intros [_ ?]%list_elem_of_filter. Qed.

Lemma count_inner i j value ws :
  i < String.length value → (∀ w, w ∈ ws → j < String.length w) →
  ∀ count,
    foldlM (λ count neighbor_value,
              c1 ← index value i;
              c2 ← index neighbor_value j;
              Ok (if decide (c1 ≠ c2) then S count else count)) count ws
    = Ok (count + length (filter (λ w, String.get i value ≠ String.get j w) ws)).
Proof.
  intros Hi. induction ws as [|w ws IH]; intros Hj count.
  - simpl. f_equal. lia.
  - rewrite foldlM_cons.
    destruct (index_in_range value i Hi) as (c1 & Hi1 & Hc1).
    destruct (index_in_range w j) as (c2 & Hj2 & Hc2); [apply Hj; left|].
    rewrite Hi1 at 1. rewrite Hj2.
    rewrite !bind_Ok, IH by (intros w' Hw'; apply Hj; by right).
    rewrite filter_cons, Hc1, Hc2. f_equal.
    destruct (decide (c1 ≠ c2)) as [Hne|Heq].
    + rewrite decide_True by congruence. simpl. lia.
    + rewrite decide_False by (intros Hn; apply Heq; congruence). lia.
Qed.

Lemma count_conflicts_total var value :
  node_consistent domains → overlaps_in_range crossword →
  String.length value = Var.length var →
  (∀ n, n ∈ neighbors crossword var → is_Some (domains !! n)) →
  count_conflicts crossword domains var assignment value
  = Ok (total_conflicts crossword domains assignment var value).
Proof.
  intros Hnode Hrange Hlen Hn. unfold count_conflicts, total_conflicts.
  assert (∀ l count,
    (∀ n, n ∈ l → n ∈ neighbors crossword var) →
    foldlM (λ count neighbor,
      if decide (assignment !! neighbor = None) then
        overlap ← overlap_entry crossword var neighbor;
        neighbor_values ← lookup_key domains neighbor;
        foldlM (λ count neighbor_value,
          match overlap with
          | None => Raise TypeError
          | Some (o0, o1) =>
              c1 ← index value o0;
              c2 ← index neighbor_value o1;
              Ok (if decide (c1 ≠ c2) then S count else count)
          end) count neighbor_values
      else Ok count) count l
    = Ok (count + sum_list (disagreements crossword domains var value
                              <$> filter (λ n, assignment !! n = None) l))) as Hgen.
  { induction l as [|n l IH]; intros count Hl.
    - simpl. f_equal. lia.
    - rewrite foldlM_cons, filter_cons.
      assert (n ∈ neighbors crossword var) as Hnn by (apply Hl; left).
      destruct (decide (assignment !! n = None)) as [Hun|Has].
      2:{ rewrite bind_Ok. apply IH. intros n' Hn'. apply Hl. by right. }
      destruct (Hn n Hnn) as [ws Hws].
      apply list_elem_of_filter in Hnn as [[_ [[i j] Ho]] _].
      rewrite (overlap_entry_Some _ _ _ _ Ho), bind_Ok.
      unfold lookup_key. rewrite Hws, bind_Ok.
      destruct (Hrange _ _ _ _ Ho) as [Hi Hj].
      rewrite count_inner.
      + rewrite bind_Ok, IH by (intros n' Hn'; apply Hl; by right).
        f_equal. rewrite fmap_cons. simpl. unfold disagreements at 2.
        rewrite Ho, Hws. lia.
      + lia.
      + intros w Hw. rewrite (Hnode n ws w Hws Hw). done. }
  rewrite Hgen by done. done.
Qed.
End Heuristics.

(** C8.  On a store in which every word has the length of its variable (the
    store after [enforce_node_consistency]) and which holds a domain for
    [var] and for each of its neighbours, with overlap offsets inside the
    variables, [order_domain_values] returns the words of the domain of
    [var], each once as in the domain, in ascending order of
    [total_conflicts]: the sum, over the unassigned neighbours, of the number
    of words in the neighbour's domain that differ from the candidate at the
    overlap offsets.  Its result is the list alone: store and assignment are
    arguments only. *)
Theorem order_domain_values_sorted (crossword : Crossword) (domains : Domains)
    (assignment : Assignment) (var : Var.t) (ws : list string) :
  node_consistent domains → overlaps_in_range crossword →
  (∀ n, n ∈ neighbors crossword var → is_Some (domains !! n)) →
  domains !! var = Some ws →
  ∃ values,
    order_domain_values crossword domains var assignment = Ok values
    ∧ values ≡ₚ ws
    ∧ StronglySorted
        (λ v1 v2, total_conflicts crossword domains assignment var v1
                  ≤ total_conflicts crossword domains assignment var v2) values.
Proof.
  intros Hnode Hrange Hn Hvar. unfold order_domain_values, lookup_key.
  rewrite Hvar, bind_Ok.
  destruct (list_sort_pure Nat.leb leb_total leb_trans
              (count_conflicts crossword domains var assignment)
              (total_conflicts crossword domains assignment var) ws)
    as (values & Hsort & Hperm & Hsorted).
  { intros value Hvalue. apply count_conflicts_total; [done..| |done].
    by eapply Hnode. }
  exists values. split; [done|]. split; [done|].
  eapply StronglySorted_mono; [|exact Hsorted]. intros a b. by rewrite Nat.leb_le.
Qed.

Lemma select_unassigned_variable_spec (crossword : Crossword) (domains : Domains)
    (assignment : Assignment) :
  (∀ var, var ∈ variables crossword → is_Some (domains !! var)) →
  (∃ var, var ∈ variables crossword ∧ assignment !! var = None) →
  ∃ var ws,
    select_unassigned_variable crossword domains assignment = Ok var
    ∧ var ∈ variables crossword ∧ assignment !! var = None
    ∧ domains !! var = Some ws
    ∧ ∀ other ws', other ∈ variables crossword → assignment !! other = None →
        domains !! other = Some ws' →
        length ws ≤ length ws'
        ∧ (length ws' = length ws →
           length (neighbors crossword other) ≤ length (neighbors crossword var)).
Proof.
  intros Hkeys (v0 & Hv0 & Hun0). unfold select_unassigned_variable.
  set (unassigned := filter (λ var, assignment !! var = None) (variables crossword)).
  set (k := λ var : Var.t, (length (default [] (domains !! var)),
                            (- Z.of_nat (length (neighbors crossword var)))%Z)).
  destruct (list_sort_pure tuple_le tuple_le_total tuple_le_trans
              (λ var, n ← num_remaining_values domains var;
                      Ok (n, (- Z.of_nat (length (neighbors crossword var)))%Z))
              k unassigned) as (sorted & -> & Hperm & Hsorted).
  { intros var [_ Hvar]%list_elem_of_filter. destruct (Hkeys var Hvar) as [ws Hws].
    unfold num_remaining_values, lookup_key, k. by rewrite Hws. }
  rewrite bind_Ok. destruct sorted as [|var sorted].
  { exfalso. apply Permutation_nil_l in Hperm. 
    assert (v0 ∈ unassigned) as Hin by by apply list_elem_of_filter.
    rewrite <- Hperm in Hin. by apply elem_of_nil in Hin. }
  assert (var ∈ unassigned) as Hvar by (rewrite <- Hperm; left).
  apply list_elem_of_filter in Hvar as [Hun Hvar].
  destruct (Hkeys var Hvar) as [ws Hws].
  exists var, ws. split; [done|]. do 3 (split; [done|]).
  intros other ws' Hother Huno Hws'.
  assert (other ∈ var :: sorted) as Hin.
  { rewrite Hperm. by apply list_elem_of_filter. }
  apply StronglySorted_inv in Hsorted as [_ Hmin].
  assert (tuple_le (k var) (k other) = true) as Hle.
  { apply elem_of_cons in Hin as [Heq|Hin];
      [rewrite Heq; by destruct (tuple_le_total (k var) (k var))|].
    rewrite Forall_forall in Hmin. by apply Hmin. }
  unfold tuple_le, k in Hle. rewrite Hws, Hws' in Hle. simpl in Hle.
  rewrite orb_true_iff, andb_true_iff, Nat.ltb_lt, Nat.eqb_eq, Z.leb_le in Hle. lia.
Qed.

(** C7.  When some variable has no entry in the assignment,
    [select_unassigned_variable] returns an unassigned variable whose domain
    is no larger than that of any unassigned variable, and whose number of
    neighbours is no smaller than that of any unassigned variable with a
    domain of the same size. *)
Theorem select_unassigned_variable_mrv_degree (crossword : Crossword) (domains : Domains)
    (assignment : Assignment) :
  (∀ var, var ∈ variables crossword → is_Some (domains !! var)) →
  (∃ var, var ∈ variables crossword ∧ assignment !! var = None) →
  ∃ var ws,
    select_unassigned_variable crossword domains assignment = Ok var
    ∧ var ∈ variables crossword ∧ assignment !! var = None
    ∧ domains !! var = Some ws
    ∧ ∀ other ws', other ∈ variables crossword → assignment !! other = None →
        domains !! other = Some ws' →
        length ws ≤ length ws'
        ∧ (length ws' = length ws →
           length (neighbors crossword other) ≤ length (neighbors crossword var)).
Proof. apply select_unassigned_variable_spec. Qed.

(** ** What the search does guarantee *)

Section Search.
Context (crossword : Crossword).
Implicit Types (domains : Domains) (assignment : Assignment).

Lemma backtrack_complete (fuel : nat) :
  ∀ domains assignment result,
    backtrack crossword fuel domains assignment = Ok (Some result) →
    assignment_complete crossword result = true.
Proof.
  induction fuel as [|fuel IH]; intros domains assignment result; [done|].
  cbn [backtrack].
  destruct (assignment_complete crossword assignment) eqn:Hc.
  { by intros [= <-]. }
  destruct (select_unassigned_variable crossword domains assignment)
    as [var| |]; [|done..]. rewrite bind_Ok.
  destruct (order_domain_values crossword domains var assignment)
    as [values| |]; [|done..]. rewrite bind_Ok.
  induction values as [|value values IHv]; [done|].
  destruct (consistent crossword assignment) as [[]| |]; [| |done..];
    rewrite bind_Ok; [|exact IHv].
  destruct (backtrack crossword fuel domains (<[var:=value]> assignment))
    as [[a|]| |] eqn:Hb; [| |done..]; rewrite bind_Ok; [|exact IHv].
  case_decide; [done|]. intros [= <-]. by eapply IH.
Qed.
End Search.

Lemma mapM_length {A K} (key : A → result K) (l : list A) (keys : list K) :
  mapM key l = Ok keys → length keys = length l.
Proof.
  revert keys. induction l as [|x l IH]; intros keys; simpl.
  - by intros [= <-].
  - destruct (key x) as [k| |]; [|done..]. rewrite bind_Ok.
    destruct (mapM key l) as [ks| |]; [|done..]. rewrite bind_Ok.
    intros [= <-]. simpl. f_equal. by apply IH.
Qed.

Lemma mapM_not_diverge {A K} (key : A → result K) (l : list A) :
  (∀ x, key x ≠ Diverge) → mapM key l ≠ Diverge.
Proof.
  intros Hkey. induction l as [|x l IH]; [done|]. simpl.
  specialize (Hkey x). destruct (key x) as [k| |]; [|done..]. rewrite bind_Ok.
  destruct (mapM key l) as [ks| |]; done.
Qed.

Lemma list_sort_perm {K A} (le : K → K → bool) (key : A → result K) (l l' : list A) :
  list_sort le key l = Ok l' → l' ≡ₚ l.
Proof.
  unfold list_sort. destruct (mapM key l) as [keys| |] eqn:Hkeys; [|done..].
  rewrite bind_Ok. intros [= <-]. rewrite sort_by_key_perm.
  rewrite snd_zip; [done|]. by rewrite (mapM_length _ _ _ Hkeys).
Qed.

Lemma list_sort_not_diverge {K A} (le : K → K → bool) (key : A → result K) (l : list A) :
  (∀ x, key x ≠ Diverge) → list_sort le key l ≠ Diverge.
Proof.
  intros Hkey. unfold list_sort. pose proof (mapM_not_diverge key l Hkey).
  destruct (mapM key l); done.
Qed.

Lemma index_not_diverge (s : string) (k : nat) : index s k ≠ Diverge.
Proof. unfold index. by destruct (String.get k s). Qed.

Lemma lookup_key_not_diverge {V} (m : gmap Var.t V) (k : Var.t) : lookup_key m k ≠ Diverge.
Proof. unfold lookup_key. by destruct (m !! k). Qed.

Lemma length_filter_refine {A} (P Q : A → Prop) `{∀ x, Decision (P x)}
    `{∀ x, Decision (Q x)} (l : list A) (x : A) :
  (∀ y, Q y → P y) → x ∈ l → P x → ¬ Q x →
  length (filter Q l) < length (filter P l).
Proof.
  intros HQP Hx HP HQ.
  assert (filter Q l = filter Q (filter P l)) as ->.
  { rewrite list_filter_filter. apply filter_ext_in. intros y _. split; [|tauto]. auto. }
  apply (length_filter_lt _ _ x); [|done]. by apply list_elem_of_filter.
Qed.

Section Search_termination.
Context (crossword : Crossword).
Implicit Types (domains : Domains) (assignment : Assignment).

Lemma select_unassigned_variable_unassigned domains assignment var :
  select_unassigned_variable crossword domains assignment = Ok var →
  var ∈ variables crossword ∧ assignment !! var = None.
Proof.
  unfold select_unassigned_variable.
  destruct (list_sort _ _ _) as [sorted| |] eqn:Hsort; [|done..]. rewrite bind_Ok.
  destruct sorted as [|v sorted]; [done|]. intros [= ->].
  apply list_sort_perm in Hsort.
  assert (var ∈ filter (λ var, assignment !! var = None) (variables crossword)) as Hin.
  { rewrite <- Hsort. left. }
  apply list_elem_of_filter in Hin. tauto.
Qed.

Lemma select_unassigned_variable_not_diverge domains assignment :
  select_unassigned_variable crossword domains assignment ≠ Diverge.
Proof.
  unfold select_unassigned_variable.
  pose proof (list_sort_not_diverge tuple_le
    (λ var, n ← num_remaining_values domains var;
            Ok (n, (- Z.of_nat (length (neighbors crossword var)))%Z))
    (filter (λ var, assignment !! var = None) (variables crossword))) as Hs.
  destruct (list_sort _ _ _) as [[|v sorted]| |]; [done..|].
  exfalso. apply Hs; [|done]. intros var. unfold num_remaining_values, lookup_key.
  by destruct (domains !! var).
Qed.

Lemma count_conflicts_not_diverge domains var assignment value :
  count_conflicts crossword domains var assignment value ≠ Diverge.
Proof.
  unfold count_conflicts. apply foldlM_not_diverge. intros count n.
  case_decide; [|done].
  destruct (overlap_entry crossword var n) as [o|e|] eqn:Ho; [|done|].
  2:{ unfold overlap_entry in Ho. destruct (overlaps crossword var n); [done|].
      by case_decide. }
  rewrite bind_Ok. unfold lookup_key.
  destruct (domains !! n) as [ws|]; [|done]. rewrite bind_Ok.
  apply foldlM_not_diverge. intros c w.
  destruct o as [[o0 o1]|]; [|done].
  pose proof (index_not_diverge value o0). destruct (index value o0); [|done..].
  rewrite bind_Ok.
  pose proof (index_not_diverge w o1). destruct (index w o1); done.
Qed.

Lemma order_domain_values_not_diverge domains var assignment :
  order_domain_values crossword domains var assignment ≠ Diverge.
Proof.
  unfold order_domain_values, lookup_key.
  destruct (domains !! var) as [ws|]; [|done]. rewrite bind_Ok.
  apply list_sort_not_diverge. intros. apply count_conflicts_not_diverge.
Qed.

Lemma all_agree_not_diverge ps : all_agree crossword ps ≠ Diverge.
Proof.
  induction ps as [|[[v1 w1] [v2 w2]] ps IH]; [done|]. cbn [all_agree].
  assert (agree crossword (v1, w1, (v2, w2)) ≠ Diverge) as Ha.
  { unfold agree. case_decide; [|done].
    destruct (overlaps crossword v1 v2) as [[o0 o1]|]; [|done].
    pose proof (index_not_diverge w1 o0). destruct (index w1 o0); [|done..].
    rewrite bind_Ok.
    pose proof (index_not_diverge w2 o1). destruct (index w2 o1); done. }
  destruct (agree crossword (v1, w1, (v2, w2))) as [[]| |]; done.
Qed.

Lemma consistent_not_diverge assignment : consistent crossword assignment ≠ Diverge.
Proof.
  unfold consistent. case_bool_decide; [done|].
  destruct (existsb _ _); [done|]. apply all_agree_not_diverge.
Qed.

Lemma backtrack_terminates (fuel : nat) :
  ∀ domains assignment,
    length (unassigned crossword assignment) < fuel →
    backtrack crossword fuel domains assignment ≠ Diverge.
Proof.
  induction fuel as [|fuel IH]; intros domains assignment Hfuel; [lia|].
  cbn [backtrack].
  destruct (assignment_complete crossword assignment); [done|].
  pose proof (select_unassigned_variable_not_diverge domains assignment) as Hsel.
  destruct (select_unassigned_variable crossword domains assignment)
    as [var| |] eqn:Hvar; [|done..]. rewrite bind_Ok.
  apply select_unassigned_variable_unassigned in Hvar as [Hin Hnone].
  pose proof (order_domain_values_not_diverge domains var assignment) as Hord.
  destruct (order_domain_values crossword domains var assignment)
    as [values| |]; [|done..]. rewrite bind_Ok. clear Hord Hsel.
  induction values as [|value values IHv]; [done|].
  pose proof (consistent_not_diverge assignment) as Hcons.
  destruct (consistent crossword assignment) as [[]| |]; [| |done..];
    rewrite bind_Ok; [|exact IHv].
  assert (backtrack crossword fuel domains (<[var:=value]> assignment) ≠ Diverge) as Hrec.
  { apply IH. unfold unassigned in *.
    eapply Nat.lt_le_trans; [|apply Nat.lt_succ_r, Hfuel].
    apply (length_filter_refine _ _ _ var); [|done|done|].
    - intros v. destruct (decide (var = v)) as [->|Hne].
      + by rewrite lookup_insert_eq.
      + by rewrite lookup_insert_ne.
    - by rewrite lookup_insert_eq. }
  destruct (backtrack crossword fuel domains (<[var:=value]> assignment))
    as [[a|]| |]; [| |done..]; rewrite bind_Ok; [|exact IHv].
  by case_decide.
Qed.

Lemma solve_terminates domains : solve crossword domains ≠ Diverge.
Proof.
  unfold solve.
  pose proof (ac3_terminates crossword (enforce_node_consistency domains) None) as Hac3.
  destruct (ac3 _ _ _) as [[r d]| |]; [|done..]. rewrite bind_Ok.
  apply backtrack_terminates. unfold unassigned.
  apply Nat.lt_succ_r, length_filter.
Qed.
End Search_termination.

(** ** Assigned words come from the domains *)

Section Search_values.
Context (crossword : Crossword).
Implicit Types (domains : Domains) (assignment : Assignment).

Lemma order_domain_values_perm domains var assignment values :
  order_domain_values crossword domains var assignment = Ok values →
  ∃ ws, domains !! var = Some ws ∧ values ≡ₚ ws.
Proof.
  unfold order_domain_values, lookup_key.
  destruct (domains !! var) as [ws|]; [|done]. rewrite bind_Ok.
  intros Hs%list_sort_perm. eauto.
Qed.

Lemma backtrack_drawn_from (fuel : nat) :
  ∀ domains assignment result,
    backtrack crossword fuel domains assignment = Ok (Some result) →
    drawn_from domains assignment → drawn_from domains result.
Proof.
  induction fuel as [|fuel IH]; intros domains assignment result; [done|].
  cbn [backtrack].
  destruct (assignment_complete crossword assignment) eqn:Hc.
  { by intros [= <-]. }
  destruct (select_unassigned_variable crossword domains assignment)
    as [var| |]; [|done..]. rewrite bind_Ok.
  destruct (order_domain_values crossword domains var assignment)
    as [values| |] eqn:Hord; [|done..]. rewrite bind_Ok.
  apply order_domain_values_perm in Hord as (ws & Hws & Hperm).
  assert (∀ value, value ∈ values → value ∈ ws) as Hvalues.
  { intros value. by rewrite Hperm. }
  clear Hperm.
  induction values as [|value values IHv]; [done|].
  assert (∀ value, value ∈ values → value ∈ ws) as Hrest.
  { intros v Hv. apply Hvalues. by right. }
  destruct (consistent crossword assignment) as [[]| |]; [| |done..];
    rewrite bind_Ok; [|by apply IHv].
  destruct (backtrack crossword fuel domains (<[var:=value]> assignment))
    as [[a|]| |] eqn:Hb; [| |done..]; rewrite bind_Ok; [|by apply IHv].
  case_decide; [done|]. intros [= <-] Hdrawn.
  apply (IH _ _ _ Hb). intros v w.
  destruct (decide (var = v)) as [<-|Hne].
  - rewrite lookup_insert_eq. intros [= <-]. exists ws. split; [done|].
    apply Hvalues. left.
  - rewrite lookup_insert_ne by done. apply Hdrawn.
Qed.
End Search_values.

(** X4.  Every word of an assignment returned by [solve] is a word of the
    list whose length is the length of its variable. *)
Theorem generate_words_fit (crossword : Crossword) (assignment : Assignment) :
  generate crossword = Ok (Some assignment) →
  ∀ var w, assignment !! var = Some w →
           w ∈ words crossword ∧ String.length w = Var.length var.
Proof.
  unfold generate, solve.
  destruct (ac3 _ _ _) as [[r d]| |] eqn:Hac3; [|done..]. rewrite bind_Ok.
  intros Hb var w Hw.
  apply backtrack_drawn_from in Hb; [|intros v w'; by rewrite lookup_empty].
  destruct (Hb var w Hw) as (ws & Hws & Hin).
  pose proof (ac3_shrunk _ _ _ _ _ Hac3) as Hs2.
  pose proof (enforce_node_consistency_shrunk (init_domains crossword)) as Hs1.
  pose proof (shrunk_trans _ _ _ Hs1 Hs2) as Hs. split.
  - assert (is_Some (init_domains crossword !! var)) as [ws0 Hws0].
    { apply elem_of_dom. rewrite <- (proj1 Hs). apply elem_of_dom. eauto. }
    pose proof (shrunk_subseteq _ _ _ _ _ Hs Hws0 Hws w Hin) as Hin0.
    assert (var ∈ variables crossword) as Hvar.
    { apply elem_of_dom_2 in Hws0. unfold init_domains in Hws0.
      rewrite dom_list_to_map_L in Hws0. apply elem_of_list_to_set in Hws0.
      rewrite <- list_fmap_compose in Hws0.
      apply list_elem_of_fmap in Hws0 as (v & -> & Hv). done. }
    rewrite init_domains_lookup in Hws0 by done. by injection Hws0 as <-.
  - eapply (shrunk_node_consistent _ _ Hs2); [|done..].
    apply enforce_node_consistency_node_consistent.
Qed.

(** ** A store with an empty domain *)

Section Empty_domain.
Context (crossword : Crossword).
Implicit Types (domains : Domains).

Lemma backtrack_empty_domain (fuel : nat) domains var :
  covers crossword domains → var ∈ variables crossword →
  domains !! var = Some [] →
  backtrack crossword (S fuel) domains ∅ = Ok None.
Proof.
  intros Hc Hvar Hempty. cbn [backtrack].
  assert (assignment_complete crossword ∅ = false) as ->.
  { apply bool_decide_eq_false. rewrite dom_empty_L. intros Heq.
    assert (var ∈ (∅ : gset Var.t)) as Hin.
    { rewrite Heq. by apply elem_of_list_to_set. }
    by apply not_elem_of_empty in Hin. }
  destruct (select_unassigned_variable_spec crossword domains ∅ Hc)
    as (v & ws & -> & Hv & _ & Hws & Hmin).
  { exists var. split; [done|]. apply lookup_empty. }
  rewrite bind_Ok.
  destruct (Hmin var [] Hvar (lookup_empty _) Hempty) as [Hlen _].
  destruct ws as [|w ws]; [|simpl in Hlen; lia].
  unfold order_domain_values, lookup_key. rewrite Hws. done.
Qed.

Lemma solve_empty_domain domains r domains' var :
  covers crossword domains →
  ac3 crossword (enforce_node_consistency domains) None = Ok (r, domains') →
  var ∈ variables crossword → domains' !! var = Some [] →
  solve crossword domains = Ok None.
Proof.
  intros Hc Hac3 Hvar Hempty. unfold solve. rewrite Hac3, bind_Ok.
  apply (backtrack_empty_domain _ _ var); [|done..].
  eapply shrunk_covers; [by eapply ac3_shrunk|].
  eapply shrunk_covers; [apply enforce_node_consistency_shrunk|done].
Qed.

Lemma solve_no_word_fits domains var ws :
  covers crossword domains → var ∈ variables crossword →
  domains !! var = Some ws →
  (∀ w, w ∈ ws → String.length w ≠ Var.length var) →
  solve crossword domains = Ok None.
Proof.
  intros Hc Hvar Hws Hfit.
  assert (covers crossword (enforce_node_consistency domains)) as Hc1.
  { eapply shrunk_covers; [apply enforce_node_consistency_shrunk|done]. }
  destruct (ac3_total crossword _ Hc1) as (r & d2 & Hac3).
  apply (solve_empty_domain domains r d2 var); [done..|].
  apply (shrunk_empty (enforce_node_consistency domains)); [by eapply ac3_shrunk|].
  rewrite enforce_node_consistency_lookup, Hws. simpl. f_equal.
  apply filter_none. intros w Hw Hlen. by eapply Hfit.
Qed.

Lemma solve_ac3_fails domains domains' :
  covers crossword domains →
  ac3 crossword (enforce_node_consistency domains) None = Ok (false, domains') →
  solve crossword domains = Ok None.
Proof.
  intros Hc Hac3.
  destruct (ac3_loop_false crossword _ _ _ _ (all_arcs_proper crossword) Hac3)
    as (x & Hx & Hempty).
  by apply (solve_empty_domain domains false domains' x).
Qed.
End Empty_domain.

(** X1.  If some variable's length is the length of no word of the list,
    [solve] returns [None]; it raises nothing. *)
Theorem generate_none_when_no_word_fits (crossword : Crossword) (var : Var.t) :
  var ∈ variables crossword →
  (∀ w, w ∈ words crossword → String.length w ≠ Var.length var) →
  generate crossword = Ok None.
Proof.
  intros Hvar Hfit. unfold generate.
  apply (solve_no_word_fits crossword _ var (words crossword)); [|done| |done].
  - apply init_domains_covers.
  - by apply init_domains_lookup.
Qed.

(** X2.  If [ac3] reports failure (it has emptied a domain), [solve]
    returns [None]; it raises nothing. *)
Theorem generate_none_when_ac3_fails (crossword : Crossword) (domains' : Domains) :
  ac3 crossword (enforce_node_consistency (init_domains crossword)) None
  = Ok (false, domains') →
  generate crossword = Ok None.
Proof. apply solve_ac3_fails, init_domains_covers. Qed.

(** X3.  An assignment returned by [solve] has an entry for every
    variable. *)
Theorem generate_returns_complete (crossword : Crossword) (assignment : Assignment) :
  generate crossword = Ok (Some assignment) →
  ∀ var, var ∈ variables crossword → is_Some (assignment !! var).
Proof.
  unfold generate, solve.
  destruct (ac3 _ _ _) as [[r d]| |]; [|done..]. rewrite bind_Ok.
  intros Hb%backtrack_complete var Hvar. apply bool_decide_eq_true in Hb.
  apply elem_of_dom. rewrite Hb. by apply elem_of_list_to_set.
Qed.

(** X5.  The fuel [solve] hands to [ac3] and [backtrack] is never spent. *)
Theorem generate_terminates (crossword : Crossword) : generate crossword ≠ Diverge.
Proof. apply solve_terminates. Qed.

(** ** The search on [two_rows] *)

(** C1.  A returned assignment should be complete and consistent.  On
    [two_rows] (two slots that do not meet, one word) [solve] returns an
    assignment that gives both slots the word CAT, and [consistent] itself
    rejects that assignment: [backtrack] tests the assignment before the
    new entry is added, so the entry added last is never tested. *)
Theorem solve_returns_repeated_word :
  generate two_rows = Ok (Some {[row0 := "CAT"; row2 := "CAT"]})
  ∧ consistent two_rows {[row0 := "CAT"; row2 := "CAT"]} = Ok false
  ∧ row0 ≠ row2
  ∧ ({[row0 := "CAT"; row2 := "CAT"]} : Assignment) !! row0
    = ({[row0 := "CAT"; row2 := "CAT"]} : Assignment) !! row2.
Proof. repeat split; try discriminate; vm_compute; reflexivity. Qed.

(** C2.  A candidate should be added only if the augmented assignment is
    consistent.  In the step of the search on [two_rows] that starts from
    { row0: CAT }, the variable chosen is [row2] and its only candidate is
    CAT; the test made is [consistent] of the assignment as it stands
    (true), the augmented assignment is inconsistent, and yet the entry is
    added: it is in the assignment the call returns. *)
Theorem backtrack_adds_unchecked_value :
  let domains : Domains := {[row0 := ["CAT"]; row2 := ["CAT"]]} in
  let assignment : Assignment := {[row0 := "CAT"]} in
  select_unassigned_variable two_rows domains assignment = Ok row2
  ∧ order_domain_values two_rows domains row2 assignment = Ok ["CAT"]
  ∧ consistent two_rows assignment = Ok true
  ∧ consistent two_rows (<[row2 := "CAT"]> assignment) = Ok false
  ∧ backtrack two_rows 2 domains assignment = Ok (Some (<[row2 := "CAT"]> assignment)).
Proof. repeat split; vm_compute; reflexivity. Qed.

Lemma two_rows_domains :
  ac3 two_rows (enforce_node_consistency (init_domains two_rows)) None
  = Ok (true, {[row0 := ["CAT"]; row2 := ["CAT"]]}).
Proof. vm_compute. reflexivity. Qed.

(** C3.  An unsolvable puzzle should yield [None].  [two_rows] has no
    complete consistent assignment over its word list, and [solve] returns
    an assignment for it. *)
Theorem unsolvable_puzzle_gets_assignment :
  (∀ assignment : Assignment,
     assignment_complete two_rows assignment = true →
     (∀ var w, assignment !! var = Some w → w ∈ words two_rows) →
     consistent two_rows assignment = Ok false)
  ∧ generate two_rows = Ok (Some {[row0 := "CAT"; row2 := "CAT"]}).
Proof.
  split; [|vm_compute; reflexivity].
  intros assignment Hc Hw. apply bool_decide_eq_true in Hc.
  assert (∀ var, var ∈ [row0; row2] → assignment !! var = Some "CAT") as Hcat.
  { intros var Hvar.
    assert (is_Some (assignment !! var)) as [w Hv].
    { apply elem_of_dom. rewrite Hc. by apply elem_of_list_to_set. }
    rewrite Hv. f_equal. apply Hw in Hv. simpl in Hv.
    by apply list_elem_of_singleton in Hv. }
  assert (assignment = {[row0 := "CAT"; row2 := "CAT"]}) as ->.
  { apply map_eq. intros var.
    destruct (decide (var ∈ [row0; row2])) as [Hin|Hnin].
    - rewrite (Hcat var Hin).
      apply elem_of_cons in Hin as [->|Hin]; [done|].
      apply list_elem_of_singleton in Hin as ->. done.
    - assert (assignment !! var = None) as ->.
      { apply not_elem_of_dom. rewrite Hc. by rewrite elem_of_list_to_set. }
      rewrite not_elem_of_cons, not_elem_of_cons in Hnin. destruct Hnin as (? & ? & _).
      by rewrite lookup_insert_ne, lookup_singleton_ne. }
  vm_compute. reflexivity.
Qed.

(** ** Witnesses on [hook] and [arch] *)

Lemma cell_overlaps_in_range :
  ∀ x y i j, cell_overlaps x y = Some (i, j) → i < Var.length x ∧ j < Var.length y.
Proof.
  intros x y i j. unfold cell_overlaps. case_decide; [done|].
  intros Hh. apply head_Some_elem_of, list_elem_of_filter in Hh as [_ Hin].
  rewrite <- list_cprod_list_prod in Hin. apply list_elem_of_cprod in Hin as [Hi Hj].
  apply elem_of_seq in Hi, Hj. simpl in *. lia.
Qed.

Lemma hook_symmetric (ws : list string) : symmetric_overlaps (hook ws).
Proof.
  intros x y Hx Hy. simpl in Hx, Hy.
  apply elem_of_cons in Hx as [->|Hx]; [|apply list_elem_of_singleton in Hx as ->];
    (apply elem_of_cons in Hy as [->|Hy]; [|apply list_elem_of_singleton in Hy as ->]);
    vm_compute; reflexivity.
Qed.

Lemma hook_domains :
  ac3 (hook ["CAT"; "TOC"; "DOG"; "AB"])
    (enforce_node_consistency (init_domains (hook ["CAT"; "TOC"; "DOG"; "AB"]))) None
  = Ok (true, {[row0 := ["CAT"; "TOC"]; col2 := ["CAT"; "TOC"]]}).
Proof. vm_compute. reflexivity. Qed.

Lemma ac3_sound_witness :
  ac3 (hook ["CAT"; "TOC"; "DOG"; "AB"])
    (enforce_node_consistency (init_domains (hook ["CAT"; "TOC"; "DOG"; "AB"]))) None
  = Ok (true, {[row0 := ["CAT"; "TOC"]; col2 := ["CAT"; "TOC"]]})
  ∧ ∀ x y dx wx,
    x ∈ variables (hook ["CAT"; "TOC"; "DOG"; "AB"]) →
    y ∈ neighbors (hook ["CAT"; "TOC"; "DOG"; "AB"]) x →
    ({[row0 := ["CAT"; "TOC"]; col2 := ["CAT"; "TOC"]]} : Domains) !! x = Some dx →
    wx ∈ dx →
    ∃ i j dy wy,
      overlaps (hook ["CAT"; "TOC"; "DOG"; "AB"]) x y = Some (i, j)
      ∧ ({[row0 := ["CAT"; "TOC"]; col2 := ["CAT"; "TOC"]]} : Domains) !! y = Some dy
      ∧ wy ∈ dy
      ∧ i < String.length wx ∧ j < String.length wy
      ∧ String.get i wx = String.get j wy.
Proof.
  split; [exact hook_domains|].
  apply (ac3_sound (hook ["CAT"; "TOC"; "DOG"; "AB"])
           (enforce_node_consistency (init_domains (hook ["CAT"; "TOC"; "DOG"; "AB"])))).
  - apply hook_symmetric.
  - exact hook_domains.
Defined.

(** C5 as stated, for any call of [ac3], fails for an explicit worklist:
    [ac3(arcs=[])] on the store [__init__] builds returns [True] at once,
    while DOG in the domain of [row0] has no word in the domain of its
    neighbour [col2] that starts with G. *)
Lemma ac3_explicit_worklist_unsound :
  symmetric_overlaps (hook ["CAT"; "TOC"; "DOG"])
  ∧ ac3 (hook ["CAT"; "TOC"; "DOG"]) (init_domains (hook ["CAT"; "TOC"; "DOG"])) (Some [])
    = Ok (true, init_domains (hook ["CAT"; "TOC"; "DOG"]))
  ∧ row0 ∈ variables (hook ["CAT"; "TOC"; "DOG"])
  ∧ col2 ∈ neighbors (hook ["CAT"; "TOC"; "DOG"]) row0
  ∧ init_domains (hook ["CAT"; "TOC"; "DOG"]) !! row0 = Some ["CAT"; "TOC"; "DOG"]
  ∧ "DOG" ∈ ["CAT"; "TOC"; "DOG"]
  ∧ ¬ ∃ i j dy wy,
        overlaps (hook ["CAT"; "TOC"; "DOG"]) row0 col2 = Some (i, j)
        ∧ init_domains (hook ["CAT"; "TOC"; "DOG"]) !! col2 = Some dy
        ∧ wy ∈ dy
        ∧ i < String.length "DOG" ∧ j < String.length wy
        ∧ String.get i "DOG" = String.get j wy.
Proof.
  split; [apply hook_symmetric|].
  split; [vm_compute; reflexivity|].
  split; [left|].
  split.
  { assert (neighbors (hook ["CAT"; "TOC"; "DOG"]) row0 = [col2]) as ->
      by (vm_compute; reflexivity).
    left. }
  split; [vm_compute; reflexivity|].
  split; [do 2 right; left|].
  intros (i & j & dy & wy & Ho & Hdy & Hwy & _ & _ & Hget).
  assert (overlaps (hook ["CAT"; "TOC"; "DOG"]) row0 col2 = Some (2, 0)) as Ho'
    by (vm_compute; reflexivity).
  rewrite Ho' in Ho. injection Ho as <- <-.
  assert (init_domains (hook ["CAT"; "TOC"; "DOG"]) !! col2 = Some ["CAT"; "TOC"; "DOG"])
    as Hdy' by (vm_compute; reflexivity).
  rewrite Hdy' in Hdy. injection Hdy as <-.
  repeat (apply elem_of_cons in Hwy as [->|Hwy]; [by vm_compute in Hget|]).
  by apply elem_of_nil in Hwy.
Qed.

Lemma domains_only_shrink_witness :
  dom ({[row0 := ["CAT"; "TOC"]; col2 := ["CAT"; "TOC"]]} : Domains)
  = dom (init_domains (hook ["CAT"; "TOC"; "DOG"; "AB"]))
  ∧ ∀ var ws ws',
      init_domains (hook ["CAT"; "TOC"; "DOG"; "AB"]) !! var = Some ws →
      ({[row0 := ["CAT"; "TOC"]; col2 := ["CAT"; "TOC"]]} : Domains) !! var = Some ws' →
      ws' ⊆ ws.
Proof.
  apply (domains_only_shrink (hook ["CAT"; "TOC"; "DOG"; "AB"])).
  eapply rtc_l; [apply op_node|].
  eapply rtc_once, op_ac3. exact hook_domains.
Defined.

(** On [arch] with [row4] assigned: [col2] has three words left, [col0]
    and [row0] two each; [row0] has two neighbours, [col0] one. *)
Lemma arch_covers : ∀ var, var ∈ variables arch → is_Some (arch_domains !! var).
Proof.
  intros var Hvar. simpl in Hvar.
  repeat (apply elem_of_cons in Hvar as [->|Hvar];
          [apply (bool_decide_unpack _); vm_compute; reflexivity|]).
  by apply elem_of_nil in Hvar.
Qed.

Lemma arch_node_consistent : node_consistent arch_domains.
Proof.
  intros var ws w Hws Hw.
  assert (map_Forall (λ var ws, Forall (λ w, String.length w = Var.length var) ws)
            arch_domains) as Hall.
  { apply (bool_decide_unpack _). vm_compute. reflexivity. }
  specialize (Hall var ws Hws). simpl in Hall. rewrite Forall_forall in Hall.
  by apply Hall.
Qed.

Lemma select_unassigned_variable_mrv_degree_witness :
  unassigned arch {[row4 := "COT"]} = [col2; col0; row0]
  ∧ num_remaining_values arch_domains <$> [col2; col0; row0] = [Ok 3; Ok 2; Ok 2]
  ∧ length ∘ neighbors arch <$> [col2; col0; row0] = [1; 1; 2]
  ∧ select_unassigned_variable arch arch_domains {[row4 := "COT"]} = Ok row0
  ∧ ∃ var ws,
      select_unassigned_variable arch arch_domains {[row4 := "COT"]} = Ok var
      ∧ var ∈ variables arch
      ∧ ({[row4 := "COT"]} : Assignment) !! var = None
      ∧ arch_domains !! var = Some ws
      ∧ ∀ other ws',
          other ∈ variables arch →
          ({[row4 := "COT"]} : Assignment) !! other = None →
          arch_domains !! other = Some ws' →
          length ws ≤ length ws'
          ∧ (length ws' = length ws →
             length (neighbors arch other) ≤ length (neighbors arch var)).
Proof.
  do 4 (split; [vm_compute; reflexivity|]).
  apply select_unassigned_variable_mrv_degree.
  - exact arch_covers.
  - exists row0. split; [|vm_compute; reflexivity]. do 3 right. left.
Defined.

Lemma order_domain_values_sorted_witness :
  arch_domains !! row0 = Some ["CAT"; "TOC"]
  ∧ total_conflicts arch arch_domains {[row4 := "COT"]} row0 "CAT" = 3
  ∧ total_conflicts arch arch_domains {[row4 := "COT"]} row0 "TOC" = 2
  ∧ order_domain_values arch arch_domains row0 {[row4 := "COT"]} = Ok ["TOC"; "CAT"]
  ∧ ∃ values,
      order_domain_values arch arch_domains row0 {[row4 := "COT"]} = Ok values
      ∧ values ≡ₚ ["CAT"; "TOC"]
      ∧ StronglySorted
          (λ v1 v2,
             total_conflicts arch arch_domains {[row4 := "COT"]} row0 v1
             ≤ total_conflicts arch arch_domains {[row4 := "COT"]} row0 v2) values.
Proof.
  do 4 (split; [vm_compute; reflexivity|]).
  apply order_domain_values_sorted.
  - exact arch_node_consistent.
  - exact cell_overlaps_in_range.
  - intros n Hn%list_elem_of_filter. apply arch_covers. tauto.
  - vm_compute. reflexivity.
Defined.

(** C8 as stated, for every store, fails on the store [__init__] builds
    when the word list has a short word: [count_conflicts] reads
    [value[2]] of AB and the call raises [IndexError]. *)
Lemma order_domain_values_short_word_raises :
  row0 ∈ variables (hook ["CAT"; "TOC"; "DOG"; "AB"])
  ∧ init_domains (hook ["CAT"; "TOC"; "DOG"; "AB"]) !! row0
    = Some ["CAT"; "TOC"; "DOG"; "AB"]
  ∧ order_domain_values (hook ["CAT"; "TOC"; "DOG"; "AB"])
      (init_domains (hook ["CAT"; "TOC"; "DOG"; "AB"])) row0 ∅
    = Raise IndexError
  ∧ ¬ ∃ values,
        order_domain_values (hook ["CAT"; "TOC"; "DOG"; "AB"])
          (init_domains (hook ["CAT"; "TOC"; "DOG"; "AB"])) row0 ∅
        = Ok values.
Proof.
  split; [left|].
  split; [vm_compute; reflexivity|].
  assert (order_domain_values (hook ["CAT"; "TOC"; "DOG"; "AB"])
            (init_domains (hook ["CAT"; "TOC"; "DOG"; "AB"])) row0 ∅
          = Raise IndexError) as Hraise by (vm_compute; reflexivity).
  split; [exact Hraise|]. intros [values Hvalues]. congruence.
Qed.

Lemma generate_none_when_no_word_fits_witness :
  generate (hook ["AB"; "ABCD"]) = Ok None.
Proof.
  apply (generate_none_when_no_word_fits (hook ["AB"; "ABCD"]) row0).
  - left.
  - intros w Hw. simpl in Hw.
    apply elem_of_cons in Hw as [->|Hw]; [done|].
    apply list_elem_of_singleton in Hw as ->. done.
Defined.

Lemma generate_none_when_ac3_fails_witness :
  generate (hook ["CAT"; "DOG"]) = Ok None.
Proof.
  apply (generate_none_when_ac3_fails (hook ["CAT"; "DOG"])
           {[row0 := []; col2 := ["CAT"; "DOG"]]}).
  vm_compute. reflexivity.
Defined.

Lemma generate_returns_complete_witness :
  generate (hook ["CAT"; "TOC"; "DOG"; "AB"]) = Ok (Some {[row0 := "CAT"; col2 := "CAT"]})
  ∧ ∀ var, var ∈ variables (hook ["CAT"; "TOC"; "DOG"; "AB"]) →
           is_Some (({[row0 := "CAT"; col2 := "CAT"]} : Assignment) !! var).
Proof.
  split; [vm_compute; reflexivity|].
  apply generate_returns_complete. vm_compute. reflexivity.
Defined.

Lemma generate_words_fit_witness :
  generate (hook ["CAT"; "TOC"; "DOG"; "AB"]) = Ok (Some {[row0 := "CAT"; col2 := "CAT"]})
  ∧ ∀ var w, ({[row0 := "CAT"; col2 := "CAT"]} : Assignment) !! var = Some w →
             w ∈ words (hook ["CAT"; "TOC"; "DOG"; "AB"])
             ∧ String.length w = Var.length var.
Proof.
  split; [vm_compute; reflexivity|].
  apply generate_words_fit. vm_compute. reflexivity.
Defined.

Lemma ac3_returns_witness :
  ∃ r domains',
    ac3 (hook ["CAT"; "TOC"; "DOG"; "AB"])
      (init_domains (hook ["CAT"; "TOC"; "DOG"; "AB"])) None = Ok (r, domains').
Proof. apply ac3_returns, init_domains_covers. Defined.

(** ** The consistency test *)

Lemma size_list_to_set_le (l : list string) :
  size (list_to_set l : gset string) ≤ length l.
Proof.
  induction l as [|x l IH]; [done|]. simpl.
  rewrite size_union_alt, size_singleton.
  assert (size (list_to_set l ∖ {[x]} : gset string) ≤ size (list_to_set l : gset string)).
  { apply subseteq_size. intros y. rewrite elem_of_difference. tauto. }
  lia.
Qed.

Lemma size_list_to_set_NoDup (l : list string) :
  size (list_to_set l : gset string) = length l ↔ NoDup l.
Proof.
  split; [|apply size_list_to_set].
  induction l as [|x l IH]; [constructor|]. simpl. intros Hsize.
  destruct (decide (x ∈ l)) as [Hin|Hnin].
  - exfalso. pose proof (size_list_to_set_le l) as Hle.
    assert ({[x]} ∪ list_to_set l = (list_to_set l : gset string)) as Heq.
    { apply set_eq. intros y.
      rewrite elem_of_union, elem_of_singleton, elem_of_list_to_set.
      split; [intros [->|]; done|by right]. }
    rewrite Heq in Hsize. lia.
  - constructor; [done|]. apply IH.
    rewrite size_union, size_singleton in Hsize; [lia|].
    intros y. rewrite elem_of_singleton, elem_of_list_to_set. by intros ->.
Qed.

Lemma NoDup_values_distinct (assignment : Assignment) :
  NoDup (map_to_list assignment).*2 ↔ distinct_values assignment.
Proof.
  split.
  - intros Hnd v1 v2 w H1 H2.
    apply elem_of_map_to_list in H1, H2.
    apply list_elem_of_lookup in H1 as [n1 H1], H2 as [n2 H2].
    assert (n1 = n2) as ->.
    { eapply NoDup_lookup; [exact Hnd|..]; rewrite list_lookup_fmap.
      - by rewrite H1.
      - by rewrite H2. }
    congruence.
  - intros Hd. apply NoDup_fmap_2_strong; [|apply NoDup_map_to_list].
    intros [v1 w1] [v2 w2] H1%elem_of_map_to_list H2%elem_of_map_to_list.
    simpl. intros <-. f_equal. by eapply Hd.
Qed.

Section Consistent.
Context (crossword : Crossword).
Implicit Types (assignment : Assignment).

Lemma agree_in_range v1 w1 v2 w2 :
  overlaps_in_range crossword →
  Var.length v1 = String.length w1 → Var.length v2 = String.length w2 →
  ∃ b, agree crossword ((v1, w1), (v2, w2)) = Ok b
       ∧ (b = true ↔
          ∀ i j, v1 ≠ v2 → overlaps crossword v1 v2 = Some (i, j) →
                 String.get i w1 = String.get j w2).
Proof.
  intros Hrange Hl1 Hl2. unfold agree.
  destruct (decide (v1 ≠ v2)) as [Hne|Heq].
  2:{ exists true. split; [done|]. split; [|done]. intros _ i j Hn. by destruct Heq. }
  destruct (overlaps crossword v1 v2) as [[o0 o1]|] eqn:Ho.
  2:{ exists true. split; [done|]. split; [|done]. by intros _ i j _. }
  destruct (Hrange _ _ _ _ Ho) as [H0 H1].
  destruct (index_in_range w1 o0) as (c1 & -> & Hc1); [lia|].
  destruct (index_in_range w2 o1) as (c2 & -> & Hc2); [lia|].
  rewrite !bind_Ok. eexists. split; [done|].
  rewrite bool_decide_eq_true. split.
  - intros -> i j _ [= <- <-]. congruence.
  - intros Hag. specialize (Hag o0 o1 Hne eq_refl). congruence.
Qed.

Lemma all_agree_in_range (ps : list ((Var.t * string) * (Var.t * string))) :
  overlaps_in_range crossword →
  (∀ p, p ∈ ps → Var.length p.1.1 = String.length p.1.2
                 ∧ Var.length p.2.1 = String.length p.2.2) →
  ∃ b, all_agree crossword ps = Ok b
       ∧ (b = true ↔
          ∀ p i j, p ∈ ps → p.1.1 ≠ p.2.1 →
                   overlaps crossword p.1.1 p.2.1 = Some (i, j) →
                   String.get i p.1.2 = String.get j p.2.2).
Proof.
  intros Hrange. induction ps as [|[[v1 w1] [v2 w2]] ps IH]; intros Hfit.
  { exists true. split; [done|]. split; [|done]. intros _ p i j Hp.
    by apply elem_of_nil in Hp. }
  cbn [all_agree].
  destruct (Hfit ((v1, w1), (v2, w2))) as [Hl1 Hl2]; [left|]. simpl in Hl1, Hl2.
  destruct (agree_in_range v1 w1 v2 w2 Hrange Hl1 Hl2) as (b & -> & Hb).
  rewrite bind_Ok. destruct b.
  - destruct IH as (b' & -> & Hb').
    { intros p Hp. apply Hfit. by right. }
    exists b'. split; [done|]. rewrite Hb'. split.
    + intros Hall p i j [->|Hp]%elem_of_cons; [|by apply Hall].
      simpl. intros Hne Ho. by apply (proj1 Hb eq_refl i j).
    + intros Hall p i j Hp. apply Hall. by right.
  - exists false. split; [done|]. split; [done|]. intros Hall.
    apply Hb. intros i j Hne Ho.
    by apply (Hall ((v1, w1), (v2, w2)) i j); [left|..].
Qed.

Lemma consistent_spec assignment :
  overlaps_in_range crossword →
  ∃ b, consistent crossword assignment = Ok b
       ∧ (b = true ↔ distinct_values assignment ∧ lengths_fit assignment
                     ∧ overlaps_agree crossword assignment).
Proof.
  intros Hrange. unfold consistent.
  case_bool_decide as Hsize.
  { exists false. split; [done|]. split; [done|]. intros (Hd & _).
    exfalso. apply Hsize, size_list_to_set_NoDup, NoDup_values_distinct, Hd. }
  assert (distinct_values assignment) as Hd.
  { apply NoDup_values_distinct, size_list_to_set_NoDup.
    destruct (decide (size (list_to_set (map_to_list assignment).*2 : gset string)
                      = length (map_to_list assignment).*2)); [done|]. by destruct Hsize. }
  destruct (existsb _ _) eqn:Hex.
  { exists false. split; [done|]. split; [done|]. intros (_ & Hfit & _).
    apply existsb_exists in Hex as ([v w] & Hin & Hbad).
    apply list_elem_of_In, elem_of_map_to_list in Hin.
    apply bool_decide_eq_true in Hbad. simpl in Hbad. exfalso. by apply Hbad, Hfit. }
  assert (lengths_fit assignment) as Hfit.
  { intros v w Hvw. apply elem_of_map_to_list, list_elem_of_In in Hvw.
    destruct (decide (Var.length v = String.length w)) as [|Hne]; [done|].
    assert (existsb (λ it : Var.t * string,
              bool_decide (Var.length it.1 ≠ String.length it.2))
              (map_to_list assignment) = true) as Ht.
    { apply existsb_exists. exists (v, w). split; [done|]. by apply bool_decide_eq_true. }
    congruence. }
  destruct (all_agree_in_range
              (list_prod (map_to_list assignment) (map_to_list assignment)) Hrange)
    as (b & -> & Hb).
  { intros [[v1 w1] [v2 w2]] Hp. rewrite <- list_cprod_list_prod in Hp.
    apply list_elem_of_cprod in Hp as [H1 H2]. simpl in *.
    apply elem_of_map_to_list in H1, H2. split; by apply Hfit. }
  exists b. split; [done|]. rewrite Hb. split.
  - intros Hall. split; [done|]. split; [done|].
    intros v1 v2 w1 w2 i j Hne H1 H2 Ho.
    apply (Hall ((v1, w1), (v2, w2)) i j); [|done..].
    rewrite <- list_cprod_list_prod. apply list_elem_of_cprod.
    split; by apply elem_of_map_to_list.
  - intros (_ & _ & Hag) [[v1 w1] [v2 w2]] i j Hp Hne Ho. simpl in *.
    rewrite <- list_cprod_list_prod in Hp.
    apply list_elem_of_cprod in Hp as [H1 H2]. simpl in *.
    apply elem_of_map_to_list in H1, H2. by eapply Hag.
Qed.

Lemma consistent_weaken assignment larger :
  overlaps_in_range crossword → assignment ⊆ larger →
  consistent crossword larger = Ok true →
  consistent crossword assignment = Ok true.
Proof.
  intros Hrange Hsub Hl.
  destruct (consistent_spec larger Hrange) as (b & Hb & Hspec).
  rewrite Hl in Hb. injection Hb as <-.
  destruct (proj1 Hspec eq_refl) as (Hd & Hfit & Hag).
  destruct (consistent_spec assignment Hrange) as (c & -> & Hc).
  f_equal. apply Hc. split; [|split].
  - intros v1 v2 w H1 H2. eapply Hd; by eapply lookup_weaken.
  - intros v w Hv. eapply Hfit. by eapply lookup_weaken.
  - intros v1 v2 w1 w2 i j Hne H1 H2. eapply Hag; [done|by eapply lookup_weaken..].
Qed.
End Consistent.

(** ** The search on a well-formed store *)

Section Search_total.
Context (crossword : Crossword) (domains : Domains).
Context (Hrange : overlaps_in_range crossword).
Context (Hcovers : covers crossword domains).
Context (Hnode : node_consistent domains).
Implicit Types (assignment : Assignment).

Lemma incomplete_unassigned assignment :
  within crossword assignment →
  assignment_complete crossword assignment = false →
  ∃ var, var ∈ variables crossword ∧ assignment !! var = None.
Proof.
  intros Hin Hc. apply bool_decide_eq_false in Hc.
  destruct (decide (Exists (λ v, assignment !! v = None) (variables crossword)))
    as [Hex|Hall].
  { apply Exists_exists in Hex as (v & Hv & Hnone). eauto. }
  exfalso. apply Hc. apply set_eq. intros v.
  rewrite elem_of_dom, elem_of_list_to_set. split; [apply Hin|].
  intros Hv. destruct (assignment !! v) eqn:Hav; [eauto|].
  exfalso. apply Hall, Exists_exists. eauto.
Qed.

Lemma order_domain_values_ok assignment var ws :
  var ∈ variables crossword → domains !! var = Some ws →
  ∃ values, order_domain_values crossword domains var assignment = Ok values
            ∧ values ≡ₚ ws.
Proof.
  intros Hvar Hws. unfold order_domain_values, lookup_key. rewrite Hws, bind_Ok.
  destruct (list_sort_pure Nat.leb leb_total leb_trans
              (count_conflicts crossword domains var assignment)
              (total_conflicts crossword domains assignment var) ws)
    as (values & Hsort & Hperm & _); [|eauto].
  intros value Hvalue. apply count_conflicts_total; [done..| |].
  - by eapply Hnode.
  - intros n Hn%list_elem_of_filter. apply Hcovers. tauto.
Qed.

Lemma within_insert assignment var value :
  within crossword assignment → var ∈ variables crossword →
  within crossword (<[var := value]> assignment).
Proof.
  intros Hin Hvar v. destruct (decide (var = v)) as [<-|Hne]; [done|].
  rewrite lookup_insert_ne by done. apply Hin.
Qed.

Lemma unassigned_insert assignment var value :
  var ∈ variables crossword → assignment !! var = None →
  length (unassigned crossword (<[var := value]> assignment))
  < length (unassigned crossword assignment).
Proof.
  intros Hvar Hnone. unfold unassigned.
  apply (length_filter_refine _ _ _ var); [|done|done|].
  - intros v. destruct (decide (var = v)) as [->|Hne].
    + by rewrite lookup_insert_eq.
    + by rewrite lookup_insert_ne.
  - by rewrite lookup_insert_eq.
Qed.

(** On a well-formed store the search raises nothing. *)
Lemma backtrack_ok (fuel : nat) :
  ∀ assignment,
    within crossword assignment →
    length (unassigned crossword assignment) < fuel →
    ∃ r, backtrack crossword fuel domains assignment = Ok r.
Proof.
  induction fuel as [|fuel IH]; intros assignment Hin Hfuel; [lia|].
  cbn [backtrack].
  destruct (assignment_complete crossword assignment) eqn:Hc; [eauto|].
  destruct (select_unassigned_variable_spec crossword domains assignment Hcovers)
    as (var & ws & -> & Hvar & Hnone & Hws & _).
  { by apply incomplete_unassigned. }
  rewrite bind_Ok.
  destruct (order_domain_values_ok assignment var ws Hvar Hws) as (values & -> & _).
  rewrite bind_Ok.
  destruct (consistent_spec crossword assignment Hrange) as (c & -> & _).
  induction values as [|value values IHv]; [eauto|].
  rewrite bind_Ok. destruct c; [|exact IHv].
  destruct (IH (<[var:=value]> assignment)) as [r Hr].
  { by apply within_insert. }
  { pose proof (unassigned_insert assignment var value Hvar Hnone). lia. }
  rewrite Hr, bind_Ok. destruct r as [a|]; [|exact IHv].
  case_decide as Hempty; [|eauto]. exfalso.
  apply backtrack_complete in Hr. apply bool_decide_eq_true in Hr.
  assert (var ∈ dom a) as Hd by (rewrite Hr; by apply elem_of_list_to_set).
  rewrite Hempty in Hd. by apply not_elem_of_empty in Hd.
Qed.

(** A partial assignment that some complete, consistent assignment over
    the domains extends is never given up. *)
Lemma backtrack_finds (fuel : nat) (solution : Assignment) :
  assignment_complete crossword solution = true →
  consistent crossword solution = Ok true →
  drawn_from domains solution →
  ∀ assignment,
    assignment ⊆ solution →
    length (unassigned crossword assignment) < fuel →
    ∃ r, backtrack crossword fuel domains assignment = Ok (Some r).
Proof.
  intros Hcomplete Hsol Hdrawn.
  apply bool_decide_eq_true in Hcomplete.
  destruct (consistent_spec crossword solution Hrange) as (b & Hb & Hspec).
  rewrite Hsol in Hb. injection Hb as <-.
  destruct (proj1 Hspec eq_refl) as (Hd & Hfit & Hag).
  induction fuel as [|fuel IH]; intros assignment Hsub Hfuel; [lia|].
  assert (within crossword assignment) as Hin.
  { intros v [w Hv].
    apply (elem_of_list_to_set (C := gset Var.t)). rewrite <- Hcomplete.
    apply elem_of_dom. exists w. by eapply lookup_weaken. }
  cbn [backtrack].
  destruct (assignment_complete crossword assignment) eqn:Hc; [eauto|].
  destruct (select_unassigned_variable_spec crossword domains assignment Hcovers)
    as (var & ws & -> & Hvar & Hnone & Hws & _).
  { by apply incomplete_unassigned. }
  rewrite bind_Ok.
  destruct (order_domain_values_ok assignment var ws Hvar Hws)
    as (values & -> & Hperm).
  rewrite bind_Ok.
  assert (consistent crossword assignment = Ok true) as Hcons
    by by eapply consistent_weaken.
  assert (is_Some (solution !! var)) as [w Hw].
  { apply elem_of_dom. rewrite Hcomplete. by apply elem_of_list_to_set. }
  assert (w ∈ values) as Hwin.
  { rewrite Hperm. destruct (Hdrawn var w Hw) as (ws' & Hws' & Hin'). congruence. }
  clear Hperm. rewrite Hcons. induction values as [|value values IHv].
  { by apply elem_of_nil in Hwin. }
  rewrite bind_Ok.
  destruct (backtrack_ok fuel (<[var:=value]> assignment)) as [r Hr].
  { by apply within_insert. }
  { pose proof (unassigned_insert assignment var value Hvar Hnone). lia. }
  rewrite Hr, bind_Ok. destruct r as [a|].
  - case_decide as Hempty; [|eauto]. exfalso.
    apply backtrack_complete in Hr. apply bool_decide_eq_true in Hr.
    assert (var ∈ dom a) as Hda by (rewrite Hr; by apply elem_of_list_to_set).
    rewrite Hempty in Hda. by apply not_elem_of_empty in Hda.
  - apply elem_of_cons in Hwin as [->|Hwin]; [|by apply IHv].
    exfalso. destruct (IH (<[var:=value]> assignment)) as [r' Hr'].
    { by apply insert_subseteq_l. }
    { pose proof (unassigned_insert assignment var value Hvar Hnone). lia. }
    congruence.
Qed.
End Search_total.

Section Search_last.
Context (crossword : Crossword).
Implicit Types (domains : Domains) (assignment : Assignment).

(** The search tests an assignment before it adds to it: whatever it
    returns is consistent once the entry added last is taken out. *)
Lemma backtrack_last_unchecked (fuel : nat) :
  ∀ domains assignment r,
    backtrack crossword fuel domains assignment = Ok (Some r) →
    r = assignment
    ∨ ∃ v, is_Some (r !! v) ∧ consistent crossword (delete v r) = Ok true.
Proof.
  induction fuel as [|fuel IH]; intros domains assignment r; [done|].
  cbn [backtrack].
  destruct (assignment_complete crossword assignment) eqn:Hc.
  { intros [= <-]. by left. }
  destruct (select_unassigned_variable crossword domains assignment)
    as [var| |] eqn:Hsel; [|done..]. rewrite bind_Ok.
  apply select_unassigned_variable_unassigned in Hsel as [_ Hnone].
  destruct (order_domain_values crossword domains var assignment)
    as [values| |]; [|done..]. rewrite bind_Ok.
  induction values as [|value values IHv]; [done|].
  destruct (consistent crossword assignment) as [[]| |] eqn:Hcons; [| |done..];
    rewrite bind_Ok; [|exact IHv].
  destruct (backtrack crossword fuel domains (<[var:=value]> assignment))
    as [[a|]| |] eqn:Hb; [| |done..]; rewrite bind_Ok; [|exact IHv].
  case_decide; [done|]. intros [= <-]. right.
  apply IH in Hb as [->|Hb]; [|done].
  exists var. rewrite lookup_insert_eq. split; [eauto|].
  by rewrite delete_insert_eq, delete_id.
Qed.
End Search_last.

(** ** Pruning keeps every solution *)

Lemma enforce_node_consistency_keeps (domains : Domains) (solution : Assignment) :
  lengths_fit solution → drawn_from domains solution →
  drawn_from (enforce_node_consistency domains) solution.
Proof.
  intros Hfit Hdrawn v w Hv. destruct (Hdrawn v w Hv) as (ws & Hws & Hin).
  rewrite enforce_node_consistency_lookup, Hws. simpl. eexists. split; [done|].
  apply list_elem_of_filter. split; [|done]. symmetry. by apply Hfit.
Qed.

Section Pruning.
Context (crossword : Crossword) (solution : Assignment).
Context (Hrange : overlaps_in_range crossword).
Context (Hcomplete : assignment_complete crossword solution = true).
Context (Hsol : consistent crossword solution = Ok true).
Implicit Types (domains : Domains) (arcs : list Arc).

Lemma solution_conditions :
  distinct_values solution ∧ lengths_fit solution ∧ overlaps_agree crossword solution.
Proof.
  destruct (consistent_spec crossword solution Hrange) as (b & Hb & Hspec).
  rewrite Hsol in Hb. injection Hb as <-. by apply Hspec.
Qed.

Lemma solution_lookup v :
  v ∈ variables crossword → is_Some (solution !! v).
Proof.
  intros Hv. apply bool_decide_eq_true in Hcomplete.
  apply elem_of_dom. rewrite Hcomplete. by apply elem_of_list_to_set.
Qed.

Lemma solution_matches x y i j wx wy :
  x ≠ y → overlaps crossword x y = Some (i, j) →
  solution !! x = Some wx → solution !! y = Some wy →
  matches i j wx wy = true.
Proof.
  intros Hxy Ho Hx Hy. destruct solution_conditions as (_ & Hfit & Hag).
  destruct (Hrange _ _ _ _ Ho) as [Hi Hj].
  apply matches_spec. rewrite <- (Hfit x wx Hx), <- (Hfit y wy Hy).
  split; [done|]. split; [done|]. by eapply Hag.
Qed.

Lemma revise_keeps domains x y r domains' :
  proper_arc crossword (x, y) →
  drawn_from domains solution →
  revise crossword domains x y = Ok (r, domains') →
  drawn_from domains' solution.
Proof.
  intros (Hx & Hy & Hxy) Hdrawn Hrev. simpl in Hx, Hy, Hxy.
  destruct (overlaps crossword x y) as [[i j]|] eqn:Ho.
  2:{ apply revise_None_Ok in Hrev; [|done]. by injection Hrev as -> ->. }
  destruct (solution_lookup x Hx) as [wx Hwx].
  destruct (solution_lookup y Hy) as [wy Hwy].
  destruct (Hdrawn x wx Hwx) as (dx & Hdx & Hinx).
  destruct (Hdrawn y wy Hwy) as (dy & Hdy & Hiny).
  rewrite (revise_exact crossword domains x y i j dx dy) in Hrev by done.
  injection Hrev as <- <-. intros v w Hv.
  destruct (decide (x = v)) as [<-|Hne].
  - rewrite lookup_insert_eq. eexists. split; [done|].
    assert (w = wx) as -> by congruence.
    apply list_elem_of_filter. split; [|done].
    exists wy. split; [done|]. apply matches_spec. by eapply solution_matches.
  - rewrite lookup_insert_ne by done. by apply Hdrawn.
Qed.

Lemma ac3_loop_keeps (fuel : nat) :
  ∀ domains arcs r domains',
    Forall (proper_arc crossword) arcs →
    drawn_from domains solution →
    ac3_loop crossword fuel domains arcs = Ok (r, domains') →
    drawn_from domains' solution.
Proof.
  induction fuel as [|fuel IH]; intros domains arcs r domains' Harcs Hdrawn.
  { destruct arcs as [|[x y] arcs]; [|done]. by intros [= <- <-]. }
  destruct arcs as [|[x y] arcs]; [by intros [= <- <-]|].
  apply Forall_cons in Harcs as [Hxy Harcs]. cbn [ac3_loop].
  destruct (revise crossword domains x y) as [[rv d1]| |] eqn:Hrev; [|done..].
  rewrite bind_Ok. pose proof (revise_keeps _ _ _ _ _ Hxy Hdrawn Hrev) as Hd1.
  destruct rv; [|by apply IH].
  unfold lookup_key. destruct (d1 !! x) as [dx|]; [|done]. rewrite bind_Ok.
  case_bool_decide; [by intros [= <- <-]|].
  apply IH; [|done]. apply Forall_app. split; [done|].
  apply new_arcs_proper. apply Hxy.
Qed.

Lemma ac3_keeps domains r domains' :
  drawn_from domains solution →
  ac3 crossword domains None = Ok (r, domains') →
  r = true ∧ drawn_from domains' solution.
Proof.
  intros Hdrawn Hac3.
  assert (drawn_from domains' solution) as Hd'.
  { eapply ac3_loop_keeps; [apply all_arcs_proper|done|exact Hac3]. }
  split; [|done]. destruct r; [done|]. exfalso.
  destruct (ac3_loop_false crossword _ _ _ _ (all_arcs_proper crossword) Hac3)
    as (x & Hx & Hempty).
  destruct (solution_lookup x Hx) as [w Hw].
  destruct (Hd' x w Hw) as (ws & Hws & Hin).
  rewrite Hempty in Hws. injection Hws as <-. by apply elem_of_nil in Hin.
Qed.
End Pruning.

Section Generate.
Context (crossword : Crossword).
Context (Hrange : overlaps_in_range crossword).

Lemma pruned_store :
  ∃ r domains,
    ac3 crossword (enforce_node_consistency (init_domains crossword)) None
    = Ok (r, domains)
    ∧ covers crossword domains ∧ node_consistent domains.
Proof.
  assert (covers crossword (enforce_node_consistency (init_domains crossword))) as Hc.
  { eapply shrunk_covers; [apply enforce_node_consistency_shrunk|].
    apply init_domains_covers. }
  destruct (ac3_total crossword _ Hc) as (r & d & Hac3).
  exists r, d. split; [done|]. pose proof (ac3_shrunk _ _ _ _ _ Hac3) as Hs. split.
  - by eapply shrunk_covers.
  - eapply shrunk_node_consistent; [done|].
    apply enforce_node_consistency_node_consistent.
Qed.

Lemma empty_within : within crossword ∅.
Proof. intros v [w Hv]. by rewrite lookup_empty in Hv. Qed.

Lemma empty_unassigned :
  length (unassigned crossword ∅) < S (length (variables crossword)).
Proof. apply Nat.lt_succ_r, length_filter. Qed.

Lemma generate_ok : ∃ r, generate crossword = Ok r.
Proof.
  destruct pruned_store as (r & d & Hac3 & Hc & Hn).
  unfold generate, solve. rewrite Hac3, bind_Ok.
  apply backtrack_ok; [done..|apply empty_within|apply empty_unassigned].
Qed.

Lemma generate_finds (solution : Assignment) :
  assignment_complete crossword solution = true →
  (∀ v w, solution !! v = Some w → w ∈ words crossword) →
  consistent crossword solution = Ok true →
  ∃ r, generate crossword = Ok (Some r).
Proof.
  intros Hcomplete Hwords Hsol.
  destruct pruned_store as (r & d & Hac3 & Hc & Hn).
  unfold generate, solve. rewrite Hac3, bind_Ok.
  destruct (solution_conditions crossword solution Hrange Hsol) as (_ & Hfit & _).
  assert (drawn_from (init_domains crossword) solution) as Hd0.
  { intros v w Hv. exists (words crossword). split; [|by eapply Hwords].
    apply init_domains_lookup. apply bool_decide_eq_true in Hcomplete.
    apply (elem_of_list_to_set (C := gset Var.t)). rewrite <- Hcomplete.
    apply elem_of_dom. eauto. }
  apply enforce_node_consistency_keeps in Hd0; [|done].
  destruct (ac3_keeps crossword solution Hrange Hcomplete Hsol _ _ _ Hd0 Hac3)
    as [_ Hd2].
  apply (backtrack_finds crossword d Hrange Hc Hn _ solution); [done..| |].
  - apply map_empty_subseteq.
  - apply empty_unassigned.
Qed.
End Generate.

(** ** A store that AC-3 leaves alone *)

Section AC3_stable.
Context (crossword : Crossword).
Implicit Types (domains : Domains) (arcs : list Arc) (x y : Var.t).

Lemma ac3_loop_stable domains :
  ∀ arcs fuel,
    length arcs ≤ fuel →
    Forall (λ a : Arc, revise crossword domains a.1 a.2 = Ok (false, domains)) arcs →
    ac3_loop crossword fuel domains arcs = Ok (true, domains).
Proof.
  induction arcs as [|[x y] arcs IH]; intros fuel Hfuel Hall.
  { by destruct fuel. }
  destruct fuel as [|fuel]; [simpl in Hfuel; lia|].
  apply Forall_cons in Hall as [Hxy Hall]. simpl in Hxy.
  cbn [ac3_loop]. rewrite Hxy, bind_Ok. apply IH; [simpl in Hfuel; lia|done].
Qed.

Lemma ac3_stable domains :
  Forall (λ a : Arc, revise crossword domains a.1 a.2 = Ok (false, domains))
    (all_arcs crossword) →
  ac3 crossword domains None = Ok (true, domains).
Proof. intros Hall. apply ac3_loop_stable; [unfold ac3_fuel; lia|done]. Qed.

Lemma revise_consistent_overlap domains x y i j :
  overlaps crossword x y = Some (i, j) →
  x ≠ y → is_Some (domains !! x) → arc_consistent crossword domains x y →
  revise crossword domains x y = Ok (false, domains).
Proof.
  intros Ho Hxy [dx Hdx] Hcons.
  destruct dx as [|w dx].
  { rewrite (revise_Some _ _ _ _ _ _ Ho). unfold lookup_key. by rewrite Hdx. }
  destruct (Hcons i j (w :: dx) w Ho Hdx) as (dy & Hdy & _); [left|].
  rewrite (revise_exact crossword domains x y i j (w :: dx) dy) by done.
  assert (∀ wx, wx ∈ w :: dx → supported i j dy wx) as Hall.
  { intros wx Hwx. destruct (Hcons i j (w :: dx) wx Ho Hdx Hwx) as (dy' & Hdy' & Hs).
    congruence. }
  f_equal. f_equal.
  - apply not_true_is_false. intros Hex.
    apply existsb_exists in Hex as (wx & Hin & Hneg).
    apply list_elem_of_In, Hall, existsb_matches in Hin. by rewrite Hin in Hneg.
  - rewrite filter_all by done. by apply insert_id.
Qed.

Lemma revise_consistent_arc domains x y :
  proper_arc crossword (x, y) →
  is_Some (domains !! x) → arc_consistent crossword domains x y →
  revise crossword domains x y = Ok (false, domains).
Proof.
  intros (Hx & Hy & Hxy) Hdx Hcons. simpl in Hx, Hy, Hxy.
  destruct (overlaps crossword x y) as [[i j]|] eqn:Ho.
  - by eapply revise_consistent_overlap.
  - by apply revise_None.
Qed.

Lemma revise_twice domains x y r domains' :
  x ≠ y → revise crossword domains x y = Ok (r, domains') →
  revise crossword domains' x y = Ok (false, domains').
Proof.
  intros Hxy Hrev. pose proof Hrev as Hshr.
  apply revise_shrinks in Hshr as [[-> ->]|(-> & ws & ws' & Hx & -> & _)]; [done|].
  destruct (overlaps crossword x y) as [[i j]|] eqn:Ho.
  2:{ by apply revise_None_Ok in Hrev. }
  eapply revise_consistent_overlap; [done|done|by rewrite lookup_insert_eq; eauto|].
  by eapply revise_arc_consistent.
Qed.

Lemma revise_key_errors domains x y i j :
  overlaps crossword x y = Some (i, j) →
  (domains !! x = None → revise crossword domains x y = Raise KeyError)
  ∧ (domains !! x = Some [] → revise crossword domains x y = Ok (false, domains))
  ∧ (∀ w ws, domains !! x = Some (w :: ws) → domains !! y = None →
             revise crossword domains x y = Raise KeyError).
Proof.
  intros Ho. rewrite (revise_Some _ _ _ _ _ _ Ho). unfold lookup_key. repeat split.
  - by intros ->.
  - by intros ->.
  - intros w ws -> Hy. rewrite bind_Ok, foldlM_cons, revise_step_eq. simpl.
    by rewrite Hy.
Qed.
End AC3_stable.

(** ** Edge cases of the heuristics *)

Lemma sort_by_key_equal_keys {K A} (le : K → K → bool) (k : K) (l : list (K * A)) :
  le k k = true → Forall (λ p, p.1 = k) l → sort_by_key le l = l.
Proof.
  intros Hk. induction 1 as [|[kx x] l Hx Hl IH]; [done|].
  simpl in *. rewrite IH. subst kx. destruct l as [|[ky y] l']; [done|].
  apply Forall_cons in Hl as [Hy _]. simpl in *. subst ky. by rewrite Hk.
Qed.

Section Heuristics_edge.
Context (crossword : Crossword).
Implicit Types (domains : Domains) (assignment : Assignment).

Lemma select_nothing_unassigned domains assignment :
  (∀ v, v ∈ variables crossword → is_Some (assignment !! v)) →
  select_unassigned_variable crossword domains assignment = Raise IndexError.
Proof.
  intros Hall. unfold select_unassigned_variable.
  rewrite filter_none; [done|]. intros v Hv Hnone.
  destruct (Hall v Hv) as [w Hw]. congruence.
Qed.

Lemma select_missing_domain domains assignment v :
  v ∈ variables crossword → assignment !! v = None → domains !! v = None →
  select_unassigned_variable crossword domains assignment = Raise KeyError.
Proof.
  intros Hv Hun Hd. unfold select_unassigned_variable, list_sort.
  assert (v ∈ filter (λ var, assignment !! var = None) (variables crossword)) as Hin
    by by apply list_elem_of_filter.
  set (key := λ var : Var.t,
                n ← num_remaining_values domains var;
                Ok (n, (- Z.of_nat (length (neighbors crossword var)))%Z)).
  assert (mapM key (filter (λ var, assignment !! var = None) (variables crossword))
          = Raise KeyError) as ->; [|done].
  induction (filter (λ var, assignment !! var = None) (variables crossword))
    as [|u l IH]; [by apply elem_of_nil in Hin|].
  cbn [mapM]. destruct (domains !! u) as [ws|] eqn:Hu.
  - assert (key u = Ok (length ws, (- Z.of_nat (length (neighbors crossword u)))%Z))
      as -> by (unfold key, num_remaining_values, lookup_key; by rewrite Hu).
    rewrite bind_Ok.
    apply elem_of_cons in Hin as [->|Hin]; [congruence|].
    by rewrite (IH Hin).
  - assert (key u = Raise KeyError) as ->; [|done].
    unfold key, num_remaining_values, lookup_key. by rewrite Hu.
Qed.

Lemma count_conflicts_all_assigned domains var assignment value :
  (∀ n, n ∈ neighbors crossword var → is_Some (assignment !! n)) →
  count_conflicts crossword domains var assignment value = Ok 0.
Proof.
  intros Hall. unfold count_conflicts.
  induction (neighbors crossword var) as [|n l IH]; [done|].
  rewrite foldlM_cons. destruct (Hall n) as [w Hw]; [left|].
  rewrite decide_False by congruence. rewrite bind_Ok.
  apply IH. intros n' Hn'. apply Hall. by right.
Qed.

Lemma order_domain_values_all_assigned domains var assignment ws :
  domains !! var = Some ws →
  (∀ n, n ∈ neighbors crossword var → is_Some (assignment !! n)) →
  order_domain_values crossword domains var assignment = Ok ws.
Proof.
  intros Hws Hall. unfold order_domain_values, lookup_key, list_sort.
  rewrite Hws, bind_Ok.
  rewrite (mapM_pure _ (λ _, 0)), bind_Ok.
  2:{ intros value _. by apply count_conflicts_all_assigned. }
  rewrite (sort_by_key_equal_keys Nat.leb 0); [|done|].
  - rewrite snd_zip; [done|]. by rewrite length_fmap.
  - clear. induction ws as [|w ws IH]; constructor; done.
Qed.

Lemma backtrack_foreign_key (fuel : nat) domains assignment :
  (∀ v, v ∈ variables crossword → is_Some (assignment !! v)) →
  (∃ v, is_Some (assignment !! v) ∧ v ∉ variables crossword) →
  backtrack crossword (S fuel) domains assignment = Raise IndexError.
Proof.
  intros Hall (v & Hv & Hnot). cbn [backtrack].
  assert (assignment_complete crossword assignment = false) as ->.
  { apply bool_decide_eq_false. intros Heq. apply Hnot.
    apply (elem_of_list_to_set (C := gset Var.t)). rewrite <- Heq.
    by apply elem_of_dom. }
  by rewrite select_nothing_unassigned.
Qed.
End Heuristics_edge.

Lemma generate_no_variables (crossword : Crossword) :
  variables crossword = [] → generate crossword = Ok (Some ∅).
Proof.
  intros Hv. unfold generate, solve, init_domains, ac3, all_arcs.
  rewrite Hv. simpl. unfold enforce_node_consistency. rewrite map_imap_empty.
  assert (assignment_complete crossword ∅ = true) as ->; [|done].
  apply bool_decide_eq_true. by rewrite Hv, dom_empty_L.
Qed.

(** ** Writing the letter grid *)

Lemma cells_cell (v : Var.t) : cells v = cell v <$> seq 0 (Var.length v).
Proof. reflexivity. Qed.

Lemma shaped_replicate (h w : nat) : shaped h w (replicate h (replicate w None)).
Proof.
  split; [apply length_replicate|]. apply Forall_forall.
  intros row ->%elem_of_replicate_inv. apply length_replicate.
Qed.

Lemma letter_at_replicate (h w r c : nat) :
  r < h → c < w → letter_at (replicate h (replicate w None)) r c = Some None.
Proof.
  intros Hr Hc. unfold letter_at.
  rewrite lookup_replicate_2 by done. simpl. by rewrite lookup_replicate_2.
Qed.

Lemma letter_at_in_range (h w : nat) (letters : Letters) (r c : nat) :
  shaped h w letters → r < h → c < w → is_Some (letter_at letters r c).
Proof.
  intros [Hlen Hrows] Hr Hc. unfold letter_at.
  destruct (lookup_lt_is_Some_2 letters r) as [row Hrow]; [lia|].
  rewrite Hrow. simpl. apply lookup_lt_is_Some_2.
  rewrite Forall_forall in Hrows. rewrite (Hrows row); [done|].
  by eapply list_elem_of_lookup_2.
Qed.

Section Set_letter.
Context (h w : nat).
Implicit Types (letters : Letters).

Lemma set_letter_ok letters i j ch :
  shaped h w letters → i < h → j < w →
  ∃ letters', set_letter letters i j ch = Ok letters' ∧ shaped h w letters'
    ∧ ∀ r c, letter_at letters' r c
             = if decide ((r, c) = (i, j)) then Some (Some ch)
               else letter_at letters r c.
Proof.
  intros [Hlen Hrows] Hi Hj. unfold set_letter.
  destruct (lookup_lt_is_Some_2 letters i) as [row Hrow]; [lia|].
  rewrite Hrow.
  assert (length row = w) as Hw.
  { rewrite Forall_forall in Hrows. apply Hrows. by eapply list_elem_of_lookup_2. }
  rewrite decide_True by lia. eexists. split; [done|]. split.
  - split; [by rewrite length_insert|].
    apply Forall_insert; [done|]. by rewrite length_insert.
  - intros r c. unfold letter_at. destruct (decide (r = i)) as [->|Hne].
    + rewrite list_lookup_insert_eq by lia. simpl. rewrite Hrow. simpl.
      destruct (decide (c = j)) as [->|Hnc].
      * rewrite decide_True by done. apply list_lookup_insert_eq. lia.
      * rewrite decide_False by congruence. by apply list_lookup_insert_ne.
    + rewrite decide_False by congruence. by rewrite list_lookup_insert_ne.
Qed.

Lemma set_letter_out letters i j ch :
  shaped h w letters → ¬ (i < h ∧ j < w) →
  set_letter letters i j ch = Raise IndexError.
Proof.
  intros [Hlen Hrows] Hout. unfold set_letter.
  destruct (letters !! i) as [row|] eqn:Hrow; [|done].
  assert (length row = w) as Hw.
  { rewrite Forall_forall in Hrows. apply Hrows. by eapply list_elem_of_lookup_2. }
  apply lookup_lt_Some in Hrow. rewrite decide_False; [done|]. lia.
Qed.

(** A run of writes: either all are in bounds, and each cell holds the
    character of the last write to it, or [IndexError] is raised. *)
Lemma writes_spec (ws : list ((nat * nat) * Ascii.ascii)) :
  ∀ letters, shaped h w letters →
    (Forall (λ p, p.1.1 < h ∧ p.1.2 < w) ws ∧
     ∃ letters',
       foldlM (λ letters p, set_letter letters p.1.1 p.1.2 p.2) letters ws = Ok letters'
       ∧ shaped h w letters'
       ∧ ∀ r c x, letter_at letters' r c = Some x →
           (∃ ch, x = Some ch ∧ ((r, c), ch) ∈ ws)
           ∨ (letter_at letters r c = Some x ∧ ∀ ch, ((r, c), ch) ∉ ws))
    ∨ (¬ Forall (λ p, p.1.1 < h ∧ p.1.2 < w) ws ∧
       foldlM (λ letters p, set_letter letters p.1.1 p.1.2 p.2) letters ws
       = Raise IndexError).
Proof.
  induction ws as [|[[i j] ch] ws IH]; intros letters Hshape.
  { left. split; [constructor|]. exists letters. split; [done|]. split; [done|].
    intros r c x Hx. right. split; [done|]. intros ch'. apply not_elem_of_nil. }
  rewrite foldlM_cons. cbn [fst snd].
  destruct (decide (i < h ∧ j < w)) as [[Hi Hj]|Hout].
  2:{ right. split.
      - intros [Hin _]%Forall_cons. by apply Hout.
      - by rewrite set_letter_out. }
  destruct (set_letter_ok letters i j ch Hshape Hi Hj) as (l1 & -> & Hs1 & Hat).
  rewrite bind_Ok.
  destruct (IH l1 Hs1) as [(Hall & l2 & Hfold & Hs2 & Hcontent)|[Hnot Hfold]].
  - left. split; [by constructor|]. exists l2. split; [done|]. split; [done|].
    intros r c x Hx. destruct (Hcontent r c x Hx) as [(ch' & -> & Hin)|[Hold Hnone]].
    + left. exists ch'. split; [done|]. by right.
    + rewrite Hat in Hold. destruct (decide ((r, c) = (i, j))) as [[= -> ->]|Hne].
      * left. exists ch. split; [congruence|]. left.
      * right. split; [done|]. intros ch' [[= -> ->]|Hin]%elem_of_cons; [done|].
        by apply (Hnone ch').
  - right. split; [|done]. intros [_ Hall]%Forall_cons. by apply Hnot.
Qed.
End Set_letter.

Lemma get_Some_lt (word : string) (k : nat) (ch : Ascii.ascii) :
  String.get k word = Some ch → k < String.length word.
Proof.
  revert k. induction word as [|a word IH]; intros k Hget; [by destruct k|].
  destruct k as [|k]; simpl in *; [lia|]. apply IH in Hget. lia.
Qed.

Lemma elem_of_writes_of (variable : Var.t) (word : string) (p : nat * nat) (ch : Ascii.ascii) :
  (p, ch) ∈ writes_of variable word
  ↔ ∃ k, cell variable k = p ∧ String.get k word = Some ch.
Proof.
  unfold writes_of. rewrite list_elem_of_omap. split.
  - intros (k & _ & Hk). destruct (String.get k word) as [c|] eqn:Hget; [|done].
    simpl in Hk. injection Hk as <- <-. eauto.
  - intros (k & <- & Hget). exists k. rewrite Hget. split; [|done].
    apply elem_of_seq. split; [lia|]. simpl. by eapply get_Some_lt.
Qed.

Lemma place_word_writes_aux (variable : Var.t) (word : string) (ks : list nat) :
  (∀ k, k ∈ ks → k < String.length word) →
  ∀ letters : Letters,
    foldlM (λ letters k,
              c ← index word k;
              set_letter letters (cell variable k).1 (cell variable k).2 c) letters ks
    = foldlM (λ letters p, set_letter letters p.1.1 p.1.2 p.2) letters
        (omap (λ k, c ← String.get k word; Some (cell variable k, c)) ks).
Proof.
  induction ks as [|k ks IH]; intros Hks letters; [done|].
  rewrite foldlM_cons. cbn [omap list_omap].
  destruct (index_in_range word k) as (c & Hidx & Hget); [apply Hks; left|].
  rewrite Hidx, Hget, bind_Ok. cbn [mbind option_bind]. rewrite foldlM_cons.
  cbn [fst snd].
  destruct (set_letter letters (cell variable k).1 (cell variable k).2 c) as [l1| |];
    [|done..].
  rewrite !bind_Ok. apply IH. intros k' Hk'. apply Hks. by right.
Qed.

Lemma place_word_writes (variable : Var.t) (word : string) (letters : Letters) :
  place_word letters variable word
  = foldlM (λ letters p, set_letter letters p.1.1 p.1.2 p.2) letters
      (writes_of variable word).
Proof.
  apply place_word_writes_aux. intros k Hk%elem_of_seq. lia.
Qed.

Lemma foldlM_app {A B} (f : B → A → result B) (l1 l2 : list A) (b : B) :
  foldlM f b (l1 ++ l2) = b' ← foldlM f b l1; foldlM f b' l2.
Proof.
  revert b. induction l1 as [|x l1 IH]; intros b; [done|]. simpl.
  destruct (f b x) as [b1| |]; [|done..]. rewrite !bind_Ok. apply IH.
Qed.

Lemma letter_grid_writes (grid : Grid) (assignment : Assignment) :
  letter_grid grid assignment
  = foldlM (λ letters p, set_letter letters p.1.1 p.1.2 p.2)
      (replicate (height grid) (replicate (width grid) None))
      (flat_map (λ item, writes_of item.1 item.2) (map_to_list assignment)).
Proof.
  unfold letter_grid.
  generalize (replicate (height grid) (replicate (width grid) (@None Ascii.ascii))).
  induction (map_to_list assignment) as [|[v wd] items IH]; intros letters; [done|].
  rewrite foldlM_cons. cbn [flat_map fst snd]. rewrite foldlM_app, place_word_writes.
  destruct (foldlM _ letters (writes_of v wd)) as [l1| |]; [|done..].
  rewrite !bind_Ok. apply IH.
Qed.

Lemma elem_of_all_writes (assignment : Assignment) (p : nat * nat) (ch : Ascii.ascii) :
  (p, ch) ∈ flat_map (λ item, writes_of item.1 item.2) (map_to_list assignment)
  ↔ ∃ variable word k,
      assignment !! variable = Some word ∧ cell variable k = p
      ∧ String.get k word = Some ch.
Proof.
  rewrite list_elem_of_In, in_flat_map. split.
  - intros ([v wd] & Hin & Hw). apply list_elem_of_In, elem_of_map_to_list in Hin.
    apply list_elem_of_In, elem_of_writes_of in Hw as (k & Hc & Hg). simpl in *. eauto 6.
  - intros (v & wd & k & Ha & Hc & Hg). exists (v, wd). split.
    + by apply list_elem_of_In, elem_of_map_to_list.
    + apply list_elem_of_In, elem_of_writes_of. eauto.
Qed.

Section Letter_grid.
Context (grid : Grid) (assignment : Assignment).

Lemma in_bounds_writes :
  in_bounds grid assignment ↔
  Forall (λ p : (nat * nat) * Ascii.ascii, p.1.1 < height grid ∧ p.1.2 < width grid)
    (flat_map (λ item, writes_of item.1 item.2) (map_to_list assignment)).
Proof.
  rewrite Forall_forall. split.
  - intros Hb [p ch] (v & wd & k & Ha & <- & Hg)%elem_of_all_writes. simpl.
    apply (Hb v wd k Ha). by eapply get_Some_lt.
  - intros Hall v wd k Ha Hk. destruct (get_in_range wd k Hk) as [ch Hg].
    apply (Hall (cell v k, ch)). apply elem_of_all_writes. eauto 6.
Qed.

Lemma letter_grid_spec :
  (in_bounds grid assignment ∧
   ∃ letters,
     letter_grid grid assignment = Ok letters
     ∧ shaped (height grid) (width grid) letters
     ∧ ∀ r c, r < height grid → c < width grid →
         ∃ x, letter_at letters r c = Some x
              ∧ match x with
                | Some ch =>
                    ∃ variable word k,
                      assignment !! variable = Some word ∧ cell variable k = (r, c)
                      ∧ String.get k word = Some ch
                | None =>
                    ∀ variable word k,
                      assignment !! variable = Some word → k < String.length word →
                      cell variable k ≠ (r, c)
                end)
  ∨ (¬ in_bounds grid assignment ∧ letter_grid grid assignment = Raise IndexError).
Proof.
  rewrite letter_grid_writes, in_bounds_writes.
  destruct (writes_spec (height grid) (width grid)
              (flat_map (λ item, writes_of item.1 item.2) (map_to_list assignment))
              (replicate (height grid) (replicate (width grid) None))
              (shaped_replicate _ _))
    as [(Hall & letters & Hfold & Hshape & Hcontent)|[Hnot Hfold]]; [left|by right].
  split; [done|]. exists letters. split; [done|]. split; [done|].
  intros r c Hr Hc.
  destruct (letter_at_in_range _ _ letters r c Hshape Hr Hc) as [x Hx].
  exists x. split; [done|].
  destruct (Hcontent r c x Hx) as [(ch & -> & Hin)|[Hinit Hnone]].
  - by apply elem_of_all_writes in Hin.
  - rewrite letter_at_replicate in Hinit by done. injection Hinit as <-.
    intros v wd k Ha Hk Hcell. destruct (get_in_range wd k Hk) as [ch Hg].
    apply (Hnone ch). apply elem_of_all_writes. eauto 6.
Qed.
End Letter_grid.

(** ** Further properties of the solver *)

(** X7.  When the overlap offsets lie inside the variables, [consistent]
    raises nothing and returns [True] exactly when no word is used twice,
    every word has the length of its variable, and overlapping variables
    carry the same character at their overlap. *)
Theorem consistent_iff (crossword : Crossword) (assignment : Assignment) :
  overlaps_in_range crossword →
  ∃ b, consistent crossword assignment = Ok b
       ∧ (b = true ↔ distinct_values assignment ∧ lengths_fit assignment
                     ∧ overlaps_agree crossword assignment).
Proof. apply consistent_spec. Qed.

(** X8.  Every part of an assignment that [consistent] accepts is accepted
    too. *)
Theorem consistent_subassignment (crossword : Crossword) (assignment larger : Assignment) :
  overlaps_in_range crossword → assignment ⊆ larger →
  consistent crossword larger = Ok true →
  consistent crossword assignment = Ok true.
Proof. apply consistent_weaken. Qed.

(** X9.  When the overlap offsets lie inside the variables, [solve] raises
    nothing: it returns an assignment or [None]. *)
Theorem generate_never_raises (crossword : Crossword) :
  overlaps_in_range crossword → ∃ r, generate crossword = Ok r.
Proof. apply generate_ok. Qed.

(** X10.  If [solve] returns [None], no complete assignment over the word
    list passes [consistent]. *)
Theorem generate_none_means_unsolvable (crossword : Crossword) :
  overlaps_in_range crossword →
  generate crossword = Ok None →
  ∀ solution : Assignment,
    assignment_complete crossword solution = true →
    (∀ v w, solution !! v = Some w → w ∈ words crossword) →
    consistent crossword solution ≠ Ok true.
Proof.
  intros Hrange Hnone solution Hcomplete Hwords Hsol.
  destruct (generate_finds crossword Hrange solution Hcomplete Hwords Hsol) as [r Hr].
  congruence.
Qed.

(** X11.  An assignment returned by [solve] is empty, or passes [consistent]
    once one of its entries (the one added last) is deleted. *)
Theorem generate_last_entry_unchecked (crossword : Crossword) (r : Assignment) :
  generate crossword = Ok (Some r) →
  r = ∅ ∨ ∃ v, is_Some (r !! v) ∧ consistent crossword (delete v r) = Ok true.
Proof.
  unfold generate, solve.
  destruct (ac3 _ _ _) as [[rv d]| |]; [|done..]. rewrite bind_Ok.
  apply backtrack_last_unchecked.
Qed.

(** X14.  [ac3], called without a worklist, removes no word of a complete
    consistent assignment drawn from the domains, and reports success when
    there is one. *)
Theorem ac3_keeps_solutions (crossword : Crossword) (domains domains' : Domains)
    (solution : Assignment) (r : bool) :
  overlaps_in_range crossword →
  assignment_complete crossword solution = true →
  consistent crossword solution = Ok true →
  drawn_from domains solution →
  ac3 crossword domains None = Ok (r, domains') →
  r = true ∧ drawn_from domains' solution.
Proof. intros. by eapply ac3_keeps. Qed.

(** X15.  When [ac3], called without a worklist, returns [False], the
    domain of some variable is empty in the store it leaves. *)
Theorem ac3_false_empty_domain (crossword : Crossword) (domains domains' : Domains) :
  ac3 crossword domains None = Ok (false, domains') →
  ∃ x, x ∈ variables crossword ∧ domains' !! x = Some [].
Proof. apply ac3_loop_false, all_arcs_proper. Qed.

(** X16.  After [ac3] has returned [True], a second call returns [True] and
    leaves the store as it is. *)
Theorem ac3_idempotent (crossword : Crossword) (domains domains' : Domains) :
  symmetric_overlaps crossword → covers crossword domains →
  ac3 crossword domains None = Ok (true, domains') →
  ac3 crossword domains' None = Ok (true, domains').
Proof.
  intros Hsym Hc Hac3. apply ac3_stable.
  assert (worklist_inv crossword domains' []) as Hinv.
  { eapply (ac3_loop_sound crossword Hsym); [|..|exact Hac3].
    - apply all_arcs_proper.
    - intros u v Hu Hv Huv Hnotin. exfalso. apply Hnotin. by apply all_arcs_complete. }
  pose proof (shrunk_covers crossword _ _ (ac3_shrunk _ _ _ _ _ Hac3) Hc) as Hc'.
  eapply Forall_impl; [apply all_arcs_proper|].
  intros [x y] (Hx & Hy & Hxy). simpl in *.
  apply revise_consistent_arc; [done|by apply Hc'|].
  apply Hinv; [done..|apply not_elem_of_nil].
Qed.

(** X17.  When no two variables overlap, [ac3] returns [True] and leaves
    the store as it is, whatever the domains hold (empty ones included). *)
Theorem ac3_without_overlaps (crossword : Crossword) (domains : Domains) :
  (∀ x y, x ∈ variables crossword → y ∈ variables crossword →
          overlaps crossword x y = None) →
  ac3 crossword domains None = Ok (true, domains).
Proof.
  intros Hnone. apply ac3_stable.
  eapply Forall_impl; [apply all_arcs_proper|].
  intros [x y] (Hx & Hy & Hxy). simpl in *. apply revise_None; auto.
Qed.

(** X18.  After [revise(x, y)] for distinct [x] and [y], a second
    [revise(x, y)] removes nothing and returns [False]. *)
Theorem revise_idempotent (crossword : Crossword) (domains domains' : Domains)
    (x y : Var.t) (r : bool) :
  x ≠ y → revise crossword domains x y = Ok (r, domains') →
  revise crossword domains' x y = Ok (false, domains').
Proof. apply revise_twice. Qed.

(** X19.  [revise(x, y)] on overlapping variables raises [KeyError] when
    [x] has no domain, and when [y] has none and the domain of [x] is not
    empty; when the domain of [x] is empty, the domain of [y] is not looked
    up and the call returns [False]. *)
Theorem revise_missing_keys (crossword : Crossword) (domains : Domains)
    (x y : Var.t) (i j : nat) :
  overlaps crossword x y = Some (i, j) →
  (domains !! x = None → revise crossword domains x y = Raise KeyError)
  ∧ (domains !! x = Some [] → revise crossword domains x y = Ok (false, domains))
  ∧ (∀ w ws, domains !! x = Some (w :: ws) → domains !! y = None →
             revise crossword domains x y = Raise KeyError).
Proof. apply revise_key_errors. Qed.

(** X20.  [select_unassigned_variable] raises [IndexError] when every
    variable is assigned, and [KeyError] when an unassigned variable has no
    domain. *)
Theorem select_unassigned_variable_errors (crossword : Crossword) (domains : Domains)
    (assignment : Assignment) :
  ((∀ v, v ∈ variables crossword → is_Some (assignment !! v)) →
   select_unassigned_variable crossword domains assignment = Raise IndexError)
  ∧ (∀ v, v ∈ variables crossword → assignment !! v = None → domains !! v = None →
          select_unassigned_variable crossword domains assignment = Raise KeyError).
Proof.
  split; [apply select_nothing_unassigned|].
  intros v. apply select_missing_domain.
Qed.

(** X21.  [backtrack] on an assignment that covers every variable and also
    has a key that is no variable raises [IndexError]: the assignment does
    not count as complete, and no variable is left to select. *)
Theorem backtrack_foreign_key_raises (crossword : Crossword) (domains : Domains)
    (assignment : Assignment) (fuel : nat) :
  (∀ v, v ∈ variables crossword → is_Some (assignment !! v)) →
  (∃ v, is_Some (assignment !! v) ∧ v ∉ variables crossword) →
  backtrack crossword (S fuel) domains assignment = Raise IndexError.
Proof. apply backtrack_foreign_key. Qed.

(** X22.  When every neighbour of [var] is assigned, [order_domain_values]
    returns the domain of [var] in its own order, and looks up no other
    domain. *)
Theorem order_domain_values_neighbours_assigned (crossword : Crossword)
    (domains : Domains) (assignment : Assignment) (var : Var.t) (ws : list string) :
  domains !! var = Some ws →
  (∀ n, n ∈ neighbors crossword var → is_Some (assignment !! n)) →
  order_domain_values crossword domains var assignment = Ok ws.
Proof. apply order_domain_values_all_assigned. Qed.

(** X13.  On a puzzle without variables [solve] returns the empty
    assignment, not [None]. *)
Theorem generate_without_variables (crossword : Crossword) :
  variables crossword = [] → generate crossword = Ok (Some ∅).
Proof. apply generate_no_variables. Qed.

(** X24.  [letter_grid] returns a grid of [height] rows of [width] cells
    when every cell it writes lies inside the grid, and raises [IndexError]
    otherwise. *)
Theorem letter_grid_outcome (grid : Grid) (assignment : Assignment) :
  (in_bounds grid assignment →
   ∃ letters, letter_grid grid assignment = Ok letters
              ∧ length letters = height grid
              ∧ Forall (λ row, length row = width grid) letters)
  ∧ (¬ in_bounds grid assignment →
     letter_grid grid assignment = Raise IndexError).
Proof.
  destruct (letter_grid_spec grid assignment)
    as [(Hb & letters & Hg & [Hh Hw] & _)|[Hnb Hraise]].
  - split; [eauto|]. by intros Hnb.
  - split; [by intros Hb|done].
Qed.

(** X25.  In the grid [letter_grid] returns, a cell holds a character of
    some assigned word that covers it, or [None] when no assigned word
    covers it. *)
Theorem letter_grid_cells (grid : Grid) (assignment : Assignment) (letters : Letters) :
  letter_grid grid assignment = Ok letters →
  ∀ r c, r < height grid → c < width grid →
    ∃ x, letter_at letters r c = Some x
         ∧ match x with
           | Some ch =>
               ∃ variable word k,
                 assignment !! variable = Some word ∧ cell variable k = (r, c)
                 ∧ String.get k word = Some ch
           | None =>
               ∀ variable word k,
                 assignment !! variable = Some word → k < String.length word →
                 cell variable k ≠ (r, c)
           end.
Proof.
  intros Hg. destruct (letter_grid_spec grid assignment)
    as [(_ & letters' & Hg' & _ & Hcontent)|[_ Hraise]]; [|congruence].
  assert (letters' = letters) as -> by congruence. done.
Qed.

(** X26.  When words that share a cell agree there, every character of
    every assigned word is found at its cell of the grid. *)
Theorem letter_grid_reads_back (grid : Grid) (assignment : Assignment)
    (letters : Letters) :
  letter_grid grid assignment = Ok letters →
  cells_agree assignment →
  ∀ variable word k ch,
    assignment !! variable = Some word → String.get k word = Some ch →
    letter_at letters (cell variable k).1 (cell variable k).2 = Some (Some ch).
Proof.
  intros Hg Hagree v wd k ch Ha Hget.
  destruct (letter_grid_spec grid assignment)
    as [(Hb & letters' & Hg' & _ & Hcontent)|[_ Hraise]]; [|congruence].
  assert (letters' = letters) as -> by congruence.
  assert (k < String.length wd) as Hk by by eapply get_Some_lt.
  destruct (Hb v wd k Ha Hk) as [Hr Hc].
  destruct (Hcontent _ _ Hr Hc) as (x & Hx & Hmatch). rewrite Hx. f_equal.
  destruct x as [ch'|].
  - destruct Hmatch as (v' & wd' & k' & Ha' & Hcell & Hget'). f_equal.
    by eapply (Hagree v' wd' k' ch' v wd k ch).
  - exfalso. eapply Hmatch; [exact Ha|exact Hk|]. by destruct (cell v k).
Qed.

(** X12.  On a puzzle with a single variable, an assignment returned by
    [solve] passes [consistent]: it gives the variable one word of the
    list. *)
Theorem generate_single_variable (crossword : Crossword) (v : Var.t) (r : Assignment) :
  overlaps_in_range crossword → variables crossword = [v] →
  generate crossword = Ok (Some r) →
  consistent crossword r = Ok true ∧ ∃ w, r = {[v := w]} ∧ w ∈ words crossword.
Proof.
  intros Hrange Hv Hgen.
  destruct (pruned_store crossword) as (rv & d & Hac3 & Hc & Hn).
  unfold generate, solve in Hgen. rewrite Hac3, bind_Ok in Hgen.
  pose proof (backtrack_complete _ _ _ _ _ Hgen) as Hcomplete.
  apply bool_decide_eq_true in Hcomplete. rewrite Hv in Hcomplete.
  assert (drawn_from d r) as Hdrawn.
  { apply (backtrack_drawn_from _ _ _ _ _ Hgen). intros u w. by rewrite lookup_empty. }
  assert (∀ u w, r !! u = Some w → u = v) as Hkey.
  { intros u w Hu. apply elem_of_dom_2 in Hu. rewrite Hcomplete in Hu.
    apply elem_of_list_to_set, list_elem_of_singleton in Hu. done. }
  split.
  - destruct (consistent_spec crossword r Hrange) as (b & -> & Hb). f_equal.
    apply Hb. split; [|split].
    + intros v1 v2 w H1 H2. apply Hkey in H1, H2. congruence.
    + intros u w Hu. destruct (Hdrawn u w Hu) as (ws & Hws & Hin).
      symmetry. by eapply Hn.
    + intros v1 v2 w1 w2 i j Hne H1 H2. apply Hkey in H1, H2. congruence.
  - assert (is_Some (r !! v)) as [w Hw].
    { apply elem_of_dom. rewrite Hcomplete. apply elem_of_list_to_set. left. }
    exists w. split.
    + apply map_eq. intros u. destruct (decide (u = v)) as [->|Hne].
      * by rewrite lookup_singleton_eq.
      * rewrite lookup_singleton_ne by done.
        destruct (r !! u) as [w'|] eqn:Hu; [|done]. by apply Hkey in Hu.
    + destruct (Hdrawn v w Hw) as (ws & Hws & Hin).
      pose proof (ac3_shrunk _ _ _ _ _ Hac3) as Hs2.
      pose proof (enforce_node_consistency_shrunk (init_domains crossword)) as Hs1.
      pose proof (shrunk_trans _ _ _ Hs1 Hs2) as Hs.
      assert (v ∈ variables crossword) as Hvin by (rewrite Hv; left).
      eapply shrunk_subseteq; [exact Hs|by apply init_domains_lookup|exact Hws|done].
Qed.

(** ** Witnesses *)

Lemma lookup_pair {V} (k1 k2 : Var.t) (v1 v2 : V) (k : Var.t) (v : V) :
  ({[k1 := v1; k2 := v2]} : gmap Var.t V) !! k = Some v →
  (k = k1 ∧ v = v1) ∨ (k = k2 ∧ v = v2).
Proof.
  intros [[<- <-]|[_ H]]%lookup_insert_Some; [by left|].
  apply lookup_singleton_Some in H as [<- <-]. by right.
Qed.

Lemma elem_of_pair (x a b : Var.t) : x ∈ [a; b] → x = a ∨ x = b.
Proof.
  intros [->|Hx]%elem_of_cons; [by left|].
  apply list_elem_of_singleton in Hx. by right.
Qed.

Lemma hook_fill_checked (ws : list string) :
  assignment_complete (hook ws) hook_fill = true
  ∧ consistent (hook ws) hook_fill = Ok true.
Proof. split; vm_compute; reflexivity. Qed.

Lemma hook_fill_drawn :
  drawn_from (enforce_node_consistency (init_domains (hook ["CAT"; "TOC"; "DOG"; "AB"])))
    hook_fill.
Proof.
  intros var w [[-> ->]|[-> ->]]%lookup_pair.
  - exists ["CAT"; "TOC"; "DOG"]. split; [vm_compute; reflexivity|left].
  - exists ["CAT"; "TOC"; "DOG"]. split; [vm_compute; reflexivity|right; left].
Qed.

Lemma consistent_iff_witness :
  ∃ b, consistent (hook ["CAT"; "TOC"; "DOG"; "AB"]) hook_fill = Ok b
       ∧ (b = true ↔ distinct_values hook_fill ∧ lengths_fit hook_fill
                     ∧ overlaps_agree (hook ["CAT"; "TOC"; "DOG"; "AB"]) hook_fill).
Proof. apply consistent_iff. exact cell_overlaps_in_range. Defined.

Lemma consistent_subassignment_witness :
  consistent (hook ["CAT"; "TOC"; "DOG"; "AB"]) {[row0 := "CAT"]} = Ok true.
Proof.
  apply (consistent_subassignment _ _ hook_fill).
  - exact cell_overlaps_in_range.
  - apply insert_mono, map_empty_subseteq.
  - vm_compute. reflexivity.
Defined.

Lemma generate_never_raises_witness :
  ∃ r, generate (hook ["CAT"; "TOC"; "DOG"; "AB"]) = Ok r.
Proof. apply generate_never_raises. exact cell_overlaps_in_range. Defined.

Lemma generate_none_means_unsolvable_witness :
  generate (hook ["CAT"; "DOG"]) = Ok None
  ∧ ∀ solution : Assignment,
      assignment_complete (hook ["CAT"; "DOG"]) solution = true →
      (∀ v w, solution !! v = Some w → w ∈ words (hook ["CAT"; "DOG"])) →
      consistent (hook ["CAT"; "DOG"]) solution ≠ Ok true.
Proof.
  split; [vm_compute; reflexivity|].
  apply generate_none_means_unsolvable.
  - exact cell_overlaps_in_range.
  - vm_compute. reflexivity.
Defined.

Lemma generate_last_entry_unchecked_witness :
  ({[row0 := "CAT"; col2 := "CAT"]} : Assignment) = ∅
  ∨ ∃ v, is_Some (({[row0 := "CAT"; col2 := "CAT"]} : Assignment) !! v)
         ∧ consistent (hook ["CAT"; "TOC"; "DOG"; "AB"])
             (delete v {[row0 := "CAT"; col2 := "CAT"]}) = Ok true.
Proof.
  apply generate_last_entry_unchecked. vm_compute. reflexivity.
Defined.

Lemma ac3_keeps_solutions_witness :
  true = true
  ∧ drawn_from {[row0 := ["CAT"; "TOC"]; col2 := ["CAT"; "TOC"]]} hook_fill.
Proof.
  apply (ac3_keeps_solutions (hook ["CAT"; "TOC"; "DOG"; "AB"])
           (enforce_node_consistency (init_domains (hook ["CAT"; "TOC"; "DOG"; "AB"])))).
  - exact cell_overlaps_in_range.
  - apply hook_fill_checked.
  - apply hook_fill_checked.
  - exact hook_fill_drawn.
  - exact hook_domains.
Defined.

Lemma ac3_false_empty_domain_witness :
  ∃ x, x ∈ variables (hook ["CAT"; "DOG"])
       ∧ ({[row0 := []; col2 := ["CAT"; "DOG"]]} : Domains) !! x = Some [].
Proof.
  apply (ac3_false_empty_domain (hook ["CAT"; "DOG"])
           (enforce_node_consistency (init_domains (hook ["CAT"; "DOG"])))).
  vm_compute. reflexivity.
Defined.

Lemma ac3_idempotent_witness :
  ac3 (hook ["CAT"; "TOC"; "DOG"; "AB"])
    {[row0 := ["CAT"; "TOC"]; col2 := ["CAT"; "TOC"]]} None
  = Ok (true, {[row0 := ["CAT"; "TOC"]; col2 := ["CAT"; "TOC"]]}).
Proof.
  apply (ac3_idempotent (hook ["CAT"; "TOC"; "DOG"; "AB"])
           (enforce_node_consistency (init_domains (hook ["CAT"; "TOC"; "DOG"; "AB"])))).
  - apply hook_symmetric.
  - eapply shrunk_covers; [apply enforce_node_consistency_shrunk|].
    apply init_domains_covers.
  - exact hook_domains.
Defined.

Lemma ac3_without_overlaps_witness :
  ac3 two_rows (init_domains two_rows) None = Ok (true, init_domains two_rows).
Proof.
  apply ac3_without_overlaps.
  intros x y [-> | ->]%elem_of_pair [-> | ->]%elem_of_pair; vm_compute; reflexivity.
Defined.

Lemma revise_idempotent_witness :
  revise (hook ["CAT"; "TOC"; "DOG"])
    {[row0 := ["CAT"; "TOC"]; col2 := ["CAT"; "TOC"; "DOG"]]} row0 col2
  = Ok (false, {[row0 := ["CAT"; "TOC"]; col2 := ["CAT"; "TOC"; "DOG"]]}).
Proof.
  apply (revise_idempotent (hook ["CAT"; "TOC"; "DOG"])
           {[row0 := ["CAT"; "TOC"; "DOG"]; col2 := ["CAT"; "TOC"; "DOG"]]} _ _ _ true).
  - discriminate.
  - vm_compute. reflexivity.
Defined.

Lemma revise_missing_keys_witness :
  (({[row0 := ["CAT"]]} : Domains) !! row0 = None →
   revise (hook ["CAT"]) {[row0 := ["CAT"]]} row0 col2 = Raise KeyError)
  ∧ (({[row0 := ["CAT"]]} : Domains) !! row0 = Some [] →
     revise (hook ["CAT"]) {[row0 := ["CAT"]]} row0 col2
     = Ok (false, {[row0 := ["CAT"]]}))
  ∧ (∀ w ws, ({[row0 := ["CAT"]]} : Domains) !! row0 = Some (w :: ws) →
             ({[row0 := ["CAT"]]} : Domains) !! col2 = None →
             revise (hook ["CAT"]) {[row0 := ["CAT"]]} row0 col2 = Raise KeyError).
Proof.
  apply (revise_missing_keys (hook ["CAT"]) {[row0 := ["CAT"]]} row0 col2 2 0).
  vm_compute. reflexivity.
Defined.

Lemma select_unassigned_variable_errors_witness :
  select_unassigned_variable two_rows ∅ {[row0 := "CAT"; row2 := "CAT"]}
  = Raise IndexError
  ∧ select_unassigned_variable two_rows ∅ ∅ = Raise KeyError.
Proof.
  split.
  - apply (proj1 (select_unassigned_variable_errors two_rows ∅
                    {[row0 := "CAT"; row2 := "CAT"]})).
    intros v [-> | ->]%elem_of_pair; vm_compute; eauto.
  - apply (proj2 (select_unassigned_variable_errors two_rows ∅ ∅) row0);
      [left|reflexivity|reflexivity].
Defined.

Lemma backtrack_foreign_key_raises_witness :
  backtrack two_rows 1 {[row0 := ["CAT"]; row2 := ["CAT"]]}
    (<[col2 := "TOC"]> {[row0 := "CAT"; row2 := "CAT"]})
  = Raise IndexError.
Proof.
  apply backtrack_foreign_key_raises.
  - intros v [-> | ->]%elem_of_pair; vm_compute; eauto.
  - exists col2. split; [vm_compute; eauto|].
    intros [? | ?]%elem_of_pair; discriminate.
Defined.

Lemma order_domain_values_neighbours_assigned_witness :
  order_domain_values (hook ["CAT"; "TOC"; "DOG"; "AB"])
    {[row0 := ["CAT"; "TOC"]; col2 := ["CAT"; "TOC"]]} row0 {[col2 := "TOC"]}
  = Ok ["CAT"; "TOC"].
Proof.
  apply order_domain_values_neighbours_assigned.
  - vm_compute. reflexivity.
  - intros n Hn. apply list_elem_of_filter in Hn as [[Hne _] Hn].
    apply elem_of_pair in Hn as [-> | ->]; [done|]. vm_compute. eauto.
Defined.

Lemma generate_without_variables_witness : generate blank = Ok (Some ∅).
Proof. apply generate_without_variables. reflexivity. Defined.

Lemma hook_fill_in_bounds : in_bounds board3 hook_fill.
Proof.
  intros v wd k [[-> ->]|[-> ->]]%lookup_pair Hk; simpl in Hk;
    unfold cell; simpl; lia.
Qed.

Lemma hook_fill_cells_agree : cells_agree hook_fill.
Proof.
  intros v1 w1 k1 c1 v2 w2 k2 c2
    [[-> ->]|[-> ->]]%lookup_pair [[-> ->]|[-> ->]]%lookup_pair Hcell H1 H2;
    pose proof (get_Some_lt _ _ _ H1) as Hk1;
    pose proof (get_Some_lt _ _ _ H2) as Hk2;
    pose proof (f_equal fst Hcell) as Hr;
    pose proof (f_equal snd Hcell) as Hc;
    unfold cell in Hr, Hc; simpl in Hk1, Hk2, Hr, Hc;
    destruct k1 as [|[|[|k1]]]; try lia;
    destruct k2 as [|[|[|k2]]]; try lia;
    simpl in H1, H2; congruence.
Qed.

Lemma letter_grid_outcome_witness :
  ∃ letters, letter_grid board3 hook_fill = Ok letters
             ∧ length letters = height board3
             ∧ Forall (λ row, length row = width board3) letters.
Proof.
  apply (proj1 (letter_grid_outcome board3 hook_fill)). exact hook_fill_in_bounds.
Defined.

Lemma hook_fill_letters :
  letter_grid board3 hook_fill
  = Ok hook_letters.
Proof. vm_compute. reflexivity. Qed.

Lemma letter_grid_cells_witness :
  letter_grid board3 hook_fill
  = Ok hook_letters
  ∧ ∀ r c, r < height board3 → c < width board3 →
    ∃ x, letter_at hook_letters r c = Some x
         ∧ match x with
           | Some ch =>
               ∃ variable word k,
                 hook_fill !! variable = Some word ∧ cell variable k = (r, c)
                 ∧ String.get k word = Some ch
           | None =>
               ∀ variable word k,
                 hook_fill !! variable = Some word → k < String.length word →
                 cell variable k ≠ (r, c)
           end.
Proof.
  split; [exact hook_fill_letters|].
  apply letter_grid_cells. exact hook_fill_letters.
Defined.

Lemma letter_grid_reads_back_witness :
  cells_agree hook_fill
  ∧ ∀ variable word k ch,
    hook_fill !! variable = Some word → String.get k word = Some ch →
    letter_at hook_letters (cell variable k).1 (cell variable k).2
    = Some (Some ch).
Proof.
  split; [exact hook_fill_cells_agree|].
  apply (letter_grid_reads_back board3).
  - exact hook_fill_letters.
  - exact hook_fill_cells_agree.
Defined.

Lemma generate_single_variable_witness :
  consistent {| variables := [row0]; words := ["CAT"; "DOG"; "AB"];
                overlaps := cell_overlaps |} {[row0 := "CAT"]} = Ok true
  ∧ ∃ w, ({[row0 := "CAT"]} : Assignment) = {[row0 := w]} ∧ w ∈ ["CAT"; "DOG"; "AB"].
Proof.
  apply (generate_single_variable
           {| variables := [row0]; words := ["CAT"; "DOG"; "AB"];
              overlaps := cell_overlaps |} row0).
  - exact cell_overlaps_in_range.
  - reflexivity.
  - vm_compute. reflexivity.
Defined.
